(** * Gaussian process regression: kernel, covariance assembly, regressor

    A shallow embedding of the numerical core of
    [src/utils/gpr_visualization.ipynb]: the class
    [SquaredExponentialKernel], the helper [cov_matrix] and the class
    [GPR] with its methods [__init__] and [predict], followed by the
    plotting helpers [line_scatter], [dot_scatter],
    [uncertainty_area_scatter], [add_slider_to_function],
    [add_slider_GPR] and [plot_GPR].

    Numbers: Python floats and NumPy [float64] entries are idealised as
    real numbers ([R]); rounding, infinities and NaN are outside the
    model.  The literal [3e-7] is the rational 3/10^7.

    Arrays: a NumPy array of rank 0, 1 or 2 is a value of [ndarray]; the
    NumPy operations the source calls ([np.array], [np.dot], [.T],
    [.flatten()], [np.diag], [np.identity], [np.ones], [np.shape],
    broadcasting [+], [-] and [*]) are written out with the shape checks
    NumPy performs, and raise [ValueError] where NumPy does.

    [np.linalg.inv] belongs to NumPy, not to the repository: it is
    modelled by its contract (the two-sided inverse of a square
    invertible matrix, [LinAlgError] otherwise). *)

From Stdlib Require Import Reals Lra Lia List Arith Bool ClassicalEpsilon.
From Stdlib Require String DecimalString.
Import ListNotations.
Import String.StringSyntax.
Delimit Scope string_scope with string.

Open Scope R_scope.

Set Implicit Arguments.

(** ** Exceptions and the error monad *)

Inductive exn : Type :=
| ValueError
| LinAlgError
| IndexError.

Inductive result (A : Type) : Type :=
| Ok (a : A)
| Raise (e : exn).

Arguments Ok {A} a.
Arguments Raise {A} e.

Definition bind {A B : Type} (m : result A) (f : A -> result B) : result B :=
  match m with
  | Ok a => f a
  | Raise e => Raise e
  end.

Notation "x <- m ;; k" := (bind m (fun x => k))
  (at level 61, m at next level, right associativity).

(** A Python list comprehension whose body may raise: the elements are
    evaluated from left to right and the first exception propagates. *)
Fixpoint mapM {A B : Type} (f : A -> result B) (l : list A) : result (list B) :=
  match l with
  | [] => Ok []
  | x :: tl =>
      y <- f x ;;
      ys <- mapM f tl ;;
      Ok (y :: ys)
  end.

(** ** NumPy arrays of rank at most two *)

Notation vec := (list R) (only parsing).

Inductive ndarray : Type :=
| Scalar (x : R)
| Arr1 (v : vec)
| Arr2 (r c : nat) (d : list vec).

(** [Arr2 r c d] is well formed when [d] has [r] rows of [c] entries. *)
Definition wf_rows (r c : nat) (d : list vec) : Prop :=
  length d = r /\ Forall (fun row => length row = c) d.

Definition ndim (A : ndarray) : nat :=
  match A with
  | Scalar _ => 0
  | Arr1 _ => 1
  | Arr2 _ _ _ => 2
  end.

(** The shape read as (rows, columns), a missing axis counting as 1. *)
Definition vrows (A : ndarray) : nat :=
  match A with
  | Arr2 r _ _ => r
  | _ => 1%nat
  end.

Definition vcols (A : ndarray) : nat :=
  match A with
  | Scalar _ => 1%nat
  | Arr1 v => length v
  | Arr2 _ c _ => c
  end.

(** Entry [(i, j)] of the broadcast view: an axis of extent 1 is
    repeated. *)
Definition bget (A : ndarray) (i j : nat) : R :=
  match A with
  | Scalar x => x
  | Arr1 v => nth (if Nat.eqb (length v) 1 then 0%nat else j) v 0
  | Arr2 r c d =>
      nth (if Nat.eqb c 1 then 0%nat else j)
          (nth (if Nat.eqb r 1 then 0%nat else i) d []) 0
  end.

(** Broadcasting of one axis: equal extents, or one of them is 1. *)
Definition bdim (a b : nat) : result nat :=
  if Nat.eqb a b then Ok a
  else if Nat.eqb a 1 then Ok b
  else if Nat.eqb b 1 then Ok a
  else Raise ValueError.

Definition table (r c : nat) (f : nat -> nat -> R) : list vec :=
  map (fun i => map (fun j => f i j) (seq 0 c)) (seq 0 r).

(** An elementwise binary operator with NumPy broadcasting. *)
Definition np_binop (op : R -> R -> R) (A B : ndarray) : result ndarray :=
  r <- bdim (vrows A) (vrows B) ;;
  c <- bdim (vcols A) (vcols B) ;;
  let t := table r c (fun i j => op (bget A i j) (bget B i j)) in
  Ok (match Nat.max (ndim A) (ndim B) with
      | O => Scalar (nth 0 (nth 0 t []) 0)
      | S O => Arr1 (nth 0 t [])
      | _ => Arr2 r c t
      end).

Definition np_add : ndarray -> ndarray -> result ndarray := np_binop Rplus.
Definition np_sub : ndarray -> ndarray -> result ndarray := np_binop Rminus.

(** [c * A] for a Python float [c]. *)
Definition np_scale (c : R) (A : ndarray) : ndarray :=
  match A with
  | Scalar x => Scalar (c * x)
  | Arr1 v => Arr1 (map (Rmult c) v)
  | Arr2 r k d => Arr2 r k (map (map (Rmult c)) d)
  end.

(** [np.array] applied to a list of lists of floats, all of one length. *)
Definition np_array (l : list vec) : ndarray :=
  match l with
  | [] => Arr1 []
  | row :: _ => Arr2 (length l) (length row) l
  end.

Definition np_identity (n : nat) : ndarray :=
  Arr2 n n (table n n (fun i j => if Nat.eqb i j then 1 else 0)).

Definition np_ones (n : nat) : ndarray := Arr1 (repeat 1 n).

(** [np.shape(A)[0]] *)
Definition np_shape0 (A : ndarray) : result nat :=
  match A with
  | Scalar _ => Raise IndexError
  | Arr1 v => Ok (length v)
  | Arr2 r _ _ => Ok r
  end.

Definition rsum (v : vec) : R := fold_right Rplus 0 v.

(** Inner product of two sequences of one length. *)
Definition dotp (u v : vec) : R :=
  rsum (map (fun p => fst p * snd p) (combine u v)).

Definition col (j : nat) (d : list vec) : vec :=
  map (fun row => nth j row 0) d.

Definition transpose (c : nat) (d : list vec) : list vec :=
  map (fun j => col j d) (seq 0 c).

Definition matvec (d : list vec) (v : vec) : vec :=
  map (fun row => dotp row v) d.

Definition vecmat (u : vec) (c : nat) (d : list vec) : vec :=
  map (fun j => dotp u (col j d)) (seq 0 c).

Definition matmul (d : list vec) (c' : nat) (d' : list vec) : list vec :=
  map (fun row => vecmat row c' d') d.

(** [A.T] *)
Definition np_T (A : ndarray) : ndarray :=
  match A with
  | Arr2 r c d => Arr2 c r (transpose c d)
  | _ => A
  end.

(** [np.dot(A, B)] *)
Definition np_dot (A B : ndarray) : result ndarray :=
  match A, B with
  | Scalar x, _ => Ok (np_scale x B)
  | _, Scalar y => Ok (np_scale y A)
  | Arr1 u, Arr1 v =>
      if Nat.eqb (length u) (length v) then Ok (Scalar (dotp u v))
      else Raise ValueError
  | Arr2 r c d, Arr1 v =>
      if Nat.eqb c (length v) then Ok (Arr1 (matvec d v))
      else Raise ValueError
  | Arr1 u, Arr2 r c d =>
      if Nat.eqb (length u) r then Ok (Arr1 (vecmat u c d))
      else Raise ValueError
  | Arr2 r c d, Arr2 r' c' d' =>
      if Nat.eqb c r' then Ok (Arr2 r c' (matmul d c' d'))
      else Raise ValueError
  end.

(** [A.flatten()] *)
Definition np_flatten (A : ndarray) : ndarray :=
  match A with
  | Scalar x => Arr1 [x]
  | Arr1 v => Arr1 v
  | Arr2 _ _ d => Arr1 (concat d)
  end.

Definition diagonal (n : nat) (d : list vec) : vec :=
  map (fun i => nth i (nth i d []) 0) (seq 0 n).

(** [np.diag(A)]: the diagonal of a matrix, the diagonal matrix of a
    vector. *)
Definition np_diag (A : ndarray) : result ndarray :=
  match A with
  | Scalar _ => Raise ValueError
  | Arr1 v =>
      let n := length v in
      Ok (Arr2 n n (table n n (fun i j => if Nat.eqb i j then nth i v 0 else 0)))
  | Arr2 r c d => Ok (Arr1 (diagonal (Nat.min r c) d))
  end.

(** [np.linalg.norm(A)]: the root of the sum of the squared entries. *)
Definition entries (A : ndarray) : vec :=
  match A with
  | Scalar x => [x]
  | Arr1 v => v
  | Arr2 _ _ d => concat d
  end.

Definition sumsq (v : vec) : R := rsum (map (fun x => x * x) v).

Definition np_linalg_norm (A : ndarray) : R := sqrt (sumsq (entries A)).

(** ** [np.linalg.inv] by its contract *)

Definition is_inverse (n : nat) (d d' : list vec) : Prop :=
  wf_rows n n d' /\
  matmul d n d' = table n n (fun i j => if Nat.eqb i j then 1 else 0) /\
  matmul d' n d = table n n (fun i j => if Nat.eqb i j then 1 else 0).

Definition invertible (n : nat) (d : list vec) : Prop :=
  exists d', is_inverse n d d'.

Definition np_linalg_inv (A : ndarray) : result ndarray :=
  match A with
  | Arr2 r c d =>
      if Nat.eqb r c then
        match excluded_middle_informative (invertible r d) with
        | left H =>
            Ok (Arr2 r r (proj1_sig (constructive_indefinite_description _ H)))
        | right _ => Raise LinAlgError
        end
      else Raise LinAlgError
  | _ => Raise LinAlgError
  end.

(** ** The squared-exponential kernel *)

Definition point := ndarray.

Record SquaredExponentialKernel : Type := {
  sigma_f : R;
  length_ : R
}.

(** [SquaredExponentialKernel.__call__] *)
Definition SquaredExponentialKernel_call
    (self : SquaredExponentialKernel) (argument_1 argument_2 : point)
  : result R :=
  diff <- np_sub argument_1 argument_2 ;;
  Ok (sigma_f self *
      exp (- (np_linalg_norm diff ^ 2) / (2 * length_ self ^ 2))).

(** ** [cov_matrix] *)

(** A covariance function is any callable taking two points; it may
    raise. *)
Definition kernel := point -> point -> result R.

(** [np.array([[cov_function(a, b) for a in x1] for b in x2])] *)
Definition cov_matrix (x1 x2 : list point) (cov_function : kernel)
  : result ndarray :=
  rows <- mapM (fun b => mapM (fun a => cov_function a b) x1) x2 ;;
  Ok (np_array rows).

(** ** The regressor *)

(** The dictionary stored in [_memory] by [predict]. *)
Record Memory : Type := {
  mean : ndarray;
  covariance_matrix : ndarray;
  variance : ndarray
}.

Record GPR : Type := {
  noise : R;
  data_x : list point;
  data_y : vec;
  covariance_function : kernel;
  _inverse_of_covariance_matrix_of_input : ndarray;
  _memory : option Memory
}.

Definition stabilization : R := 3 / 10000000.

(** [GPR.__init__] *)
Definition GPR_init (data_x : list point) (data_y : vec)
    (covariance_function : kernel) (white_noise_sigma : R) : result GPR :=
  K <- cov_matrix data_x data_x covariance_function ;;
  S <- np_add K (np_scale (stabilization + white_noise_sigma)
                          (np_identity (length data_x))) ;;
  Kinv <- np_linalg_inv S ;;
  Ok {| noise := white_noise_sigma;
        data_x := data_x;
        data_y := data_y;
        covariance_function := covariance_function;
        _inverse_of_covariance_matrix_of_input := Kinv;
        _memory := None |}.

Definition set_memory (self : GPR) (m : Memory) : GPR :=
  {| noise := noise self;
     data_x := data_x self;
     data_y := data_y self;
     covariance_function := covariance_function self;
     _inverse_of_covariance_matrix_of_input :=
       _inverse_of_covariance_matrix_of_input self;
     _memory := Some m |}.

(** [GPR.predict]: the regressor after the call (its [_memory] replaced)
    and the returned value. *)
Definition GPR_predict (self : GPR) (at_values : list point)
  : result (GPR * ndarray) :=
  k_lower_left <- cov_matrix (data_x self) at_values
                             (covariance_function self) ;;
  k_lower_right <- cov_matrix at_values at_values
                              (covariance_function self) ;;
  t <- np_dot (Arr1 (data_y self))
              (np_T (_inverse_of_covariance_matrix_of_input self)) ;;
  mean0 <- np_dot k_lower_left (np_T t) ;;
  let mean_at_values := np_flatten mean0 in
  u <- np_dot (_inverse_of_covariance_matrix_of_input self)
              (np_T k_lower_left) ;;
  p <- np_dot k_lower_left u ;;
  cov0 <- np_sub k_lower_right p ;;
  n0 <- np_shape0 cov0 ;;
  cov_at_values <- np_add cov0 (np_scale stabilization (np_ones n0)) ;;
  var_at_values <- np_diag cov_at_values ;;
  Ok (set_memory self {| mean := mean_at_values;
                         covariance_matrix := cov_at_values;
                         variance := var_at_values |},
      mean_at_values).

(** ** The plotting helpers

    Plotly belongs to the environment: a [go.Scatter] trace is the record
    of the keyword arguments the helpers pass, a slider step and a slider
    are the dictionaries the helpers build, and a figure is its tuple of
    traces with the sliders of its layout, the only layout attribute the
    helpers below assign. *)

Module go.

Record Style : Type := {
  color : String.string;
  width : option nat;
  size : option nat
}.

Record Scatter : Type := {
  visible : bool;
  x : ndarray;
  y : ndarray;
  name : String.string;
  showlegend : bool;
  mode : option String.string;
  line : option Style;
  marker : option Style;
  fill : option String.string;
  fillcolor : option String.string;
  hoverinfo : option String.string
}.

Record Step : Type := {
  method : String.string;
  label : String.string;
  args_visible : list bool
}.

Record Slider : Type := {
  active : nat;
  pad_t : nat;
  steps : list Step
}.

Record Figure : Type := {
  data : list Scatter;
  sliders : list Slider
}.

End go.

(** [line_scatter] *)
Definition line_scatter (visible : bool) (x_lines y_lines : ndarray)
    (name_line : String.string) (showlegend : bool) : go.Scatter :=
  {| go.visible := visible;
     go.line := Some {| go.color := "blue"%string;
                        go.width := Some 2%nat;
                        go.size := None |};
     go.x := x_lines;
     go.y := y_lines;
     go.name := name_line;
     go.showlegend := showlegend;
     go.mode := None;
     go.marker := None;
     go.fill := None;
     go.fillcolor := None;
     go.hoverinfo := None |}.

(** [dot_scatter] *)
Definition dot_scatter (visible : bool) (x_dots y_dots : ndarray)
    (name_dots : String.string) (showlegend : bool) : go.Scatter :=
  {| go.x := x_dots;
     go.visible := visible;
     go.y := y_dots;
     go.mode := Some "markers"%string;
     go.name := name_dots;
     go.marker := Some {| go.color := "red"%string;
                          go.width := None;
                          go.size := Some 8%nat |};
     go.showlegend := showlegend;
     go.line := None;
     go.fill := None;
     go.fillcolor := None;
     go.hoverinfo := None |}.

(** [A[::-1]]: the first axis reversed; a scalar cannot be sliced. *)
Definition np_reverse (A : ndarray) : result ndarray :=
  match A with
  | Scalar _ => Raise IndexError
  | Arr1 v => Ok (Arr1 (rev v))
  | Arr2 r c d => Ok (Arr2 r c (rev d))
  end.

(** [np.concatenate((A, B))], along the first axis. *)
Definition np_concatenate (A B : ndarray) : result ndarray :=
  match A, B with
  | Arr1 u, Arr1 v => Ok (Arr1 (u ++ v))
  | Arr2 r c d, Arr2 r' c' d' =>
      if Nat.eqb c c' then Ok (Arr2 (r + r') c (d ++ d'))
      else Raise ValueError
  | _, _ => Raise ValueError
  end.

(** [uncertainty_area_scatter] *)
Definition uncertainty_area_scatter (visible : bool)
    (x_lines y_upper y_lower : ndarray) (name : String.string)
  : result go.Scatter :=
  x_back <- np_reverse x_lines ;;
  xs <- np_concatenate x_lines x_back ;;
  y_back <- np_reverse y_lower ;;
  ys <- np_concatenate y_upper y_back ;;
  Ok {| go.visible := visible;
        go.x := xs;
        go.y := ys;
        go.fill := Some "toself"%string;
        go.fillcolor := Some "rgba(189,195,199,0.5)"%string;
        go.line := Some {| go.color := "rgba(200,200,200,0)"%string;
                           go.width := None;
                           go.size := None |};
        go.hoverinfo := Some "skip"%string;
        go.showlegend := true;
        go.name := name;
        go.mode := None;
        go.marker := None |}.

(** [l[i]] and [l[i] = v] for a Python list or tuple and [0 <= i]. *)
Definition index {A : Type} (l : list A) (i : nat) : result A :=
  match nth_error l i with
  | Some a => Ok a
  | None => Raise IndexError
  end.

Definition list_assign {A : Type} (l : list A) (i : nat) (v : A)
  : result (list A) :=
  if Nat.ltb i (length l) then Ok (firstn i l ++ v :: skipn (S i) l)
  else Raise IndexError.

Definition with_visible (t : go.Scatter) (b : bool) : go.Scatter :=
  {| go.visible := b;
     go.x := go.x t;
     go.y := go.y t;
     go.name := go.name t;
     go.showlegend := go.showlegend t;
     go.mode := go.mode t;
     go.line := go.line t;
     go.marker := go.marker t;
     go.fill := go.fill t;
     go.fillcolor := go.fillcolor t;
     go.hoverinfo := go.hoverinfo t |}.

(** [figure.data[i].visible = True] *)
Definition set_trace_visible (d : list go.Scatter) (i : nat)
  : result (list go.Scatter) :=
  t <- index d i ;;
  Ok (firstn i d ++ with_visible t true :: skipn (S i) d).

Section Sliders.

(** The format specification [' .2f'] of the step labels; how Python
    prints a float is left open. *)
Variable format_2f : R -> String.string.

(** [add_slider_to_function] *)
Definition add_slider_to_function (figure : go.Figure) (parameters : vec)
  : result go.Figure :=
  d <- set_trace_visible (go.data figure) 0 ;;
  steps <- mapM (fun i =>
                   p <- index parameters i ;;
                   vis <- list_assign (repeat false (length d)) i true ;;
                   Ok {| go.method := "update"%string;
                         go.label := format_2f p;
                         go.args_visible := vis |})
                (seq 0 (length d)) ;;
  Ok {| go.data := d;
        go.sliders := [{| go.active := 0;
                          go.pad_t := 50;
                          go.steps := steps |}] |}.

(** [add_slider_GPR].  The loop bound [int((len(figure.data) - 1) / 2)]
    is reached only after [figure.data[1]] was read, that is for at
    least two traces, where it is the quotient below. *)
Definition add_slider_GPR (figure : go.Figure) (parameters : vec)
  : result go.Figure :=
  d0 <- set_trace_visible (go.data figure) 0 ;;
  d <- set_trace_visible d0 1 ;;
  steps <- mapM (fun i =>
                   p <- index parameters i ;;
                   vis0 <- list_assign
                             (repeat false (length d - 1) ++ [true])
                             (2 * i) true ;;
                   vis <- list_assign vis0 (2 * i + 1) true ;;
                   Ok {| go.method := "update"%string;
                         go.label := format_2f p;
                         go.args_visible := vis |})
                (seq 0 ((length d - 1) / 2)) ;;
  Ok {| go.data := d;
        go.sliders := [{| go.active := 0;
                          go.pad_t := 50;
                          go.steps := steps |}] |}.

End Sliders.

(** [np.sqrt], entry by entry.  NumPy returns NaN for a negative entry,
    which the real numbers do not have: the statements below assume
    non-negative entries. *)
Definition np_sqrt (A : ndarray) : ndarray :=
  match A with
  | Scalar a => Scalar (sqrt a)
  | Arr1 v => Arr1 (map sqrt v)
  | Arr2 r c d => Arr2 r c (map (map sqrt) d)
  end.

(** The exceptions of [plot_GPR]: those of the array operations, and the
    [TypeError] of subscripting [None]. *)
Inductive pyexn : Type :=
| Exn (e : exn)
| TypeError.

Inductive outcome (A : Type) : Type :=
| Done (a : A)
| Failed (e : pyexn).

Arguments Done {A} a.
Arguments Failed {A} e.

(** [f"mean plus/minus {i}*standard deviation"] *)
Definition band_name (i : nat) : String.string :=
  String.append "mean plus/minus "%string
    (String.append (DecimalString.NilEmpty.string_of_uint (Nat.to_uint i))
                   "*standard deviation"%string).

(** [plot_GPR], for a one-dimensional array [x] of query points: the
    regressor after the call and the list of traces. *)
Definition plot_GPR (data_x data_y : ndarray) (model : GPR) (x : vec)
    (visible : bool) : outcome (GPR * list go.Scatter) :=
  match GPR_predict model (map Scalar x) with
  | Raise e => Failed (Exn e)
  | Ok (model', mean) =>
      match _memory model' with
      | None => Failed TypeError
      | Some memory =>
          let std := np_sqrt (variance memory) in
          match mapM (fun i =>
                        y_lower <- np_sub mean (np_scale (INR i) std) ;;
                        y_upper <- np_add mean (np_scale (INR i) std) ;;
                        uncertainty_area_scatter visible (Arr1 x)
                          y_upper y_lower (band_name i))
                     (seq 1 3) with
          | Raise e => Failed (Exn e)
          | Ok bands =>
              Done (model',
                    bands ++
                    [line_scatter visible (Arr1 x) mean
                       "Predicted function"%string true;
                     dot_scatter visible data_x data_y
                       "Observed points"%string true])
          end
      end
  end.

(** ** Closed forms and the notions the statements use *)

(** The squared Euclidean distance of two vectors, as the specification
    writes it. *)
Definition sqdist (a b : vec) : R :=
  rsum (map (fun p => (fst p - snd p) ^ 2) (combine a b)).

(** The rows the source builds: one row per element of [x2], one entry
    per element of [x1]. *)
Definition cov_rows (f : point -> point -> R) (x1 x2 : list point)
  : list vec :=
  map (fun b => map (fun a => f a b) x1) x2.

(** The matrix of the specification: one row per element of [X], one
    entry per element of [Y]. *)
Definition spec_cov_rows (f : point -> point -> R) (X Y : list point)
  : list vec :=
  map (fun a => map (fun b => f a b) Y) X.

(** A covariance function that raises on none of the pairs it is called
    on, with values given by [f]. *)
Definition evaluates (k : kernel) (f : point -> point -> R)
    (x1 x2 : list point) : Prop :=
  forall a b, In a x1 -> In b x2 -> k a b = Ok (f a b).

(** The value a covariance function returns, 0 standing for an
    exception. *)
Definition value_of (k : kernel) (a b : point) : R :=
  match k a b with
  | Ok v => v
  | Raise _ => 0
  end.

(** [SquaredExponentialKernel()], the default arguments of [__init__]. *)
Definition default_kernel : SquaredExponentialKernel :=
  {| sigma_f := 1; length_ := 1 |}.

(** The matrix [GPR.__init__] inverts, entry by entry as the source
    assembles it: row [i], column [j] holds [k (X[j], X[i])], and the
    diagonal carries [3e-7 + noise] in addition. *)
Definition training_matrix (f : point -> point -> R) (X : list point)
    (sigma : R) : list vec :=
  table (length X) (length X)
    (fun i j => f (nth j X (Scalar 0)) (nth i X (Scalar 0)) +
                (if Nat.eqb i j then stabilization + sigma else 0)).

(** The stabilized training covariance matrix of the specification:
    [k (X[i], X[j])] off the diagonal, [k (X[i], X[i]) + (epsilon +
    sigma)] on it. *)
Definition stabilized_spec (f : point -> point -> R) (X : list point)
    (sigma : R) : list vec :=
  table (length X) (length X)
    (fun i j => if Nat.eqb i j
                then f (nth i X (Scalar 0)) (nth i X (Scalar 0)) +
                     (stabilization + sigma)
                else f (nth i X (Scalar 0)) (nth j X (Scalar 0))).

(** What [predict] computes, in closed form, for a regressor with
    training inputs [X], training outputs [y] and stored inverse [Ki],
    at the query points [Q].  [cov_rows f X Q] is [k_lower_left]. *)
Definition posterior_mean (f : point -> point -> R) (X : list point)
    (y : vec) (Ki : list vec) (Q : list point) : vec :=
  matvec (cov_rows f X Q)
         (vecmat y (length X) (transpose (length X) Ki)).

(** [np.dot(k_lower_left, np.dot(inverse, k_lower_left.T))] *)
Definition reduction (f : point -> point -> R) (X : list point)
    (Ki : list vec) (Q : list point) : list vec :=
  matmul (cov_rows f X Q) (length Q)
         (matmul Ki (length Q) (transpose (length X) (cov_rows f X Q))).

(** [k_lower_right] minus the above, then [3e-7 * np.ones(m)] added by
    broadcasting: every entry receives [3e-7]. *)
Definition posterior_cov (f : point -> point -> R) (X : list point)
    (Ki : list vec) (Q : list point) : list vec :=
  table (length Q) (length Q)
    (fun i j => nth j (nth i (cov_rows f Q Q) []) 0 -
                nth j (nth i (reduction f X Ki Q) []) 0 +
                stabilization).

(** The regressor [GPR([x], [y0], k, sigma)]. *)
Definition single_point_regressor (k : kernel) (x : point) (y0 sigma : R)
  : GPR :=
  {| noise := sigma;
     data_x := [x];
     data_y := [y0];
     covariance_function := k;
     _inverse_of_covariance_matrix_of_input :=
       Arr2 1 1 [[/ (value_of k x x + (stabilization + sigma))]];
     _memory := None |}.

(** The entrywise combination [c * u + v] of two vectors of one length,
    used to state linearity in the training outputs. *)
Definition lincomb (c : R) (u v : vec) : vec :=
  map (fun p => c * fst p + snd p) (combine u v).

(** The kernel values between the training inputs and one query point,
    [k (X[0], q), ..., k (X[n-1], q)]. *)
Definition kernel_column (f : point -> point -> R) (X : list point)
    (q : point) : vec :=
  map (fun a => f a q) X.

(** The sum [F 0 + ... + F (n-1)], and the entry in row [i], column [j]
    of a list of rows; both serve the algebra of the products above. *)
Definition bigsum (n : nat) (F : nat -> R) : R := rsum (map F (seq 0 n)).

Definition entry (d : list vec) (i j : nat) : R := nth j (nth i d []) 0.

(** The curves [mean + i * std] and [mean - i * std] of [plot_GPR], for
    a mean vector [mu] and a variance vector [v] of one length. *)
Definition band_upper (i : nat) (mu v : vec) : vec :=
  map (fun p => fst p + INR i * sqrt (snd p)) (combine mu v).

Definition band_lower (i : nat) (mu v : vec) : vec :=
  map (fun p => fst p - INR i * sqrt (snd p)) (combine mu v).

(** * Properties *)

(** ** Lists, sums and tables *)

Lemma map_seq_nth (A B : Type) (h : A -> B) (l : list A) (d : A) :
  map (fun j => h (nth j l d)) (seq 0 (length l)) = map h l.
Proof.
  induction l as [|x l IH]; simpl; [reflexivity|].
  f_equal. rewrite <- seq_shift, map_map. exact IH.
Qed.

Lemma table_ext (r c : nat) (f g : nat -> nat -> R) :
  (forall i j, (i < r)%nat -> (j < c)%nat -> f i j = g i j) ->
  table r c f = table r c g.
Proof.
  intros H. unfold table. apply map_ext_in. intros i Hi.
  apply map_ext_in. intros j Hj.
  apply in_seq in Hi. apply in_seq in Hj. apply H; lia.
Qed.

Lemma table_nth (r c : nat) (f : nat -> nat -> R) (i j : nat) :
  (i < r)%nat -> (j < c)%nat -> nth j (nth i (table r c f) []) 0 = f i j.
Proof.
  intros Hi Hj. unfold table.
  rewrite (nth_indep _ [] (map (fun j => f 0%nat j) (seq 0 c)))
    by (rewrite length_map, length_seq; exact Hi).
  rewrite (map_nth (fun i => map (fun j => f i j) (seq 0 c)) (seq 0 r) 0%nat i).
  rewrite seq_nth by exact Hi. simpl.
  rewrite (nth_indep _ 0 (f i 0%nat))
    by (rewrite length_map, length_seq; exact Hj).
  rewrite (map_nth (fun j => f i j) (seq 0 c) 0%nat j).
  rewrite seq_nth by exact Hj. reflexivity.
Qed.

Lemma table_wf (r c : nat) (f : nat -> nat -> R) : wf_rows r c (table r c f).
Proof.
  unfold wf_rows, table. split.
  - now rewrite length_map, length_seq.
  - apply Forall_forall. intros row Hrow. apply in_map_iff in Hrow.
    destruct Hrow as [i [<- _]]. now rewrite length_map, length_seq.
Qed.

Lemma dotp_comm (u v : vec) : dotp u v = dotp v u.
Proof.
  unfold dotp. revert v.
  induction u as [|x u IH]; intros [|y v]; simpl; try reflexivity.
  unfold rsum in *. rewrite IH. ring.
Qed.

Lemma sumsq_nonneg (v : vec) : 0 <= sumsq v.
Proof.
  unfold sumsq, rsum. induction v as [|x v IH]; simpl; [lra|].
  pose proof (Rle_0_sqr x) as Hx. unfold Rsqr in Hx. lra.
Qed.

Lemma norm_squared (A : ndarray) : np_linalg_norm A ^ 2 = sumsq (entries A).
Proof.
  unfold np_linalg_norm. simpl. rewrite Rmult_1_r.
  apply sqrt_sqrt, sumsq_nonneg.
Qed.

Lemma sumsq_opp (v : vec) : sumsq (map (Rmult (-1)) v) = sumsq v.
Proof.
  unfold sumsq, rsum. induction v as [|x v IH]; simpl; [reflexivity|].
  rewrite IH. ring.
Qed.

Lemma sumsq_concat_opp (d : list vec) :
  sumsq (concat (map (map (Rmult (-1))) d)) = sumsq (concat d).
Proof.
  rewrite <- concat_map. apply sumsq_opp.
Qed.

(** ** Broadcasting *)

Lemma bdim_comm (a b : nat) : bdim a b = bdim b a.
Proof.
  unfold bdim.
  destruct (Nat.eqb_spec a b) as [->|Hab].
  - now rewrite Nat.eqb_refl.
  - destruct (Nat.eqb_spec b a) as [Hba|_]; [congruence|].
    destruct (Nat.eqb_spec a 1) as [Ha|Ha];
      destruct (Nat.eqb_spec b 1) as [Hb|Hb]; try reflexivity; congruence.
Qed.

Lemma bdim_raise (a b : nat) (e : exn) : bdim a b = Raise e -> e = ValueError.
Proof.
  unfold bdim.
  destruct (Nat.eqb a b); [discriminate|].
  destruct (Nat.eqb a 1); [discriminate|].
  destruct (Nat.eqb b 1); [discriminate|]. congruence.
Qed.

Lemma np_binop_raise (op : R -> R -> R) (A B : ndarray) (e : exn) :
  np_binop op A B = Raise e -> e = ValueError.
Proof.
  unfold np_binop.
  destruct (bdim (vrows A) (vrows B)) as [r|e1] eqn:Hr; simpl.
  - destruct (bdim (vcols A) (vcols B)) as [c|e2] eqn:Hc; simpl.
    + discriminate.
    + intros H. injection H as <-. eapply bdim_raise; eauto.
  - intros H. injection H as <-. eapply bdim_raise; eauto.
Qed.

(** Swapping the operands of a subtraction negates every entry. *)
Lemma np_sub_swap (A B : ndarray) :
  np_sub B A = (D <- np_sub A B ;; Ok (np_scale (-1) D)).
Proof.
  unfold np_sub, np_binop.
  rewrite (bdim_comm (vrows B)), (bdim_comm (vcols B)), (Nat.max_comm (ndim B)).
  destruct (bdim (vrows A) (vrows B)) as [r|e1]; simpl; [|reflexivity].
  destruct (bdim (vcols A) (vcols B)) as [c|e2]; simpl; [|reflexivity].
  assert (Ht : table r c (fun i j => bget B i j - bget A i j) =
               map (map (Rmult (-1)))
                   (table r c (fun i j => bget A i j - bget B i j))).
  { unfold table. rewrite map_map. apply map_ext. intros i.
    rewrite map_map. apply map_ext. intros j. ring. }
  rewrite Ht. set (t := table r c _).
  assert (Hrow : nth 0 (map (map (Rmult (-1))) t) [] =
                 map (Rmult (-1)) (nth 0 t [])).
  { exact (map_nth (map (Rmult (-1))) t [] 0). }
  f_equal.
  destruct (Nat.max (ndim A) (ndim B)) as [|[|k]]; simpl.
  - rewrite Hrow. f_equal.
    replace 0 with (-1 * 0) at 1 by ring.
    exact (map_nth (Rmult (-1)) (nth 0 t []) 0 0).
  - now rewrite Hrow.
  - reflexivity.
Qed.

Lemma sumsq_entries_opp (D : ndarray) :
  sumsq (entries (np_scale (-1) D)) = sumsq (entries D).
Proof.
  destruct D as [x|v|r c d]; simpl.
  - unfold sumsq, rsum. simpl. ring.
  - apply sumsq_opp.
  - apply sumsq_concat_opp.
Qed.

Lemma bget_vector (v : vec) (i j : nat) :
  (j < length v)%nat -> bget (Arr1 v) i j = nth j v 0.
Proof.
  intros Hj. simpl. destruct (Nat.eqb_spec (length v) 1) as [H1|_].
  - replace j with 0%nat by lia. reflexivity.
  - reflexivity.
Qed.

Lemma bget_matrix (r c : nat) (d : list vec) (i j : nat) :
  (i < r)%nat -> (j < c)%nat -> bget (Arr2 r c d) i j = nth j (nth i d []) 0.
Proof.
  intros Hi Hj. simpl.
  destruct (Nat.eqb_spec c 1) as [Hc|_]; destruct (Nat.eqb_spec r 1) as [Hr|_];
    try (replace j with 0%nat by lia); try (replace i with 0%nat by lia);
    reflexivity.
Qed.

Lemma map_seq_combine (a b : vec) :
  length a = length b ->
  map (fun j => nth j a 0 - nth j b 0) (seq 0 (length a)) =
  map (fun p => fst p - snd p) (combine a b).
Proof.
  revert b. induction a as [|x a IH]; intros [|y b] Hlen; simpl in *;
    try discriminate; [reflexivity|].
  f_equal. rewrite <- seq_shift, map_map. apply IH. lia.
Qed.

(** Subtraction of two vectors of one length is entrywise. *)
Lemma np_sub_vectors (a b : vec) :
  length a = length b ->
  np_sub (Arr1 a) (Arr1 b) =
  Ok (Arr1 (map (fun p => fst p - snd p) (combine a b))).
Proof.
  intros Hlen. unfold np_sub, np_binop. simpl vrows. simpl vcols.
  unfold bdim at 1. simpl Nat.eqb.
  unfold bdim. rewrite Hlen, Nat.eqb_refl. simpl bind. simpl Nat.max.
  do 2 f_equal. unfold table. simpl seq. simpl map at 1. simpl nth.
  rewrite <- Hlen, <- (map_seq_combine a b Hlen).
  apply map_ext_in. intros j Hj. apply in_seq in Hj.
  destruct (Nat.eqb_spec (length a) 1) as [H1|_]; [|reflexivity].
  replace j with 0%nat by lia. reflexivity.
Qed.

(** ** The array operations on small inputs *)

Example np_sub_equal_lengths :
  np_sub (Arr1 [3; 4]) (Arr1 [1; 2]) = Ok (Arr1 [3 - 1; 4 - 2]).
Proof. reflexivity. Qed.

Example np_sub_broadcasts_length_one :
  np_sub (Arr1 [0]) (Arr1 [1; 2]) = Ok (Arr1 [0 - 1; 0 - 2]).
Proof. reflexivity. Qed.

Example np_sub_rejects_lengths_2_3 :
  np_sub (Arr1 [0; 0]) (Arr1 [1; 2; 3]) = Raise ValueError.
Proof. reflexivity. Qed.

Example np_add_vector_to_matrix :
  np_add (Arr2 2 2 [[1; 2]; [3; 4]]) (np_scale 5 (np_ones 2)) =
  Ok (Arr2 2 2 [[1 + 5 * 1; 2 + 5 * 1]; [3 + 5 * 1; 4 + 5 * 1]]).
Proof. reflexivity. Qed.

Example np_add_empty_to_identity :
  np_add (np_array []) (np_scale 5 (np_identity 0)) = Ok (Arr2 0 0 []).
Proof. reflexivity. Qed.

Example np_dot_matrix_vector :
  np_dot (Arr2 2 2 [[1; 2]; [3; 4]]) (Arr1 [5; 6]) =
  Ok (Arr1 [1 * 5 + (2 * 6 + 0); 3 * 5 + (4 * 6 + 0)]).
Proof. reflexivity. Qed.

Example np_dot_vector_transpose :
  np_dot (Arr1 [5; 6]) (np_T (Arr2 2 2 [[1; 2]; [3; 4]])) =
  Ok (Arr1 [5 * 1 + (6 * 2 + 0); 5 * 3 + (6 * 4 + 0)]).
Proof. reflexivity. Qed.

Example np_dot_empty_vector :
  np_dot (np_array []) (Arr1 [1]) = Raise ValueError.
Proof. reflexivity. Qed.

Example np_diag_of_matrix :
  np_diag (Arr2 2 2 [[1; 2]; [3; 4]]) = Ok (Arr1 [1; 4]).
Proof. reflexivity. Qed.

Example cov_matrix_orientation :
  cov_matrix [Scalar 1; Scalar 2; Scalar 3] [Scalar 10; Scalar 20]
    (fun a b => Ok (bget a 0 0 + bget b 0 0)) =
  Ok (Arr2 2 3 [[1 + 10; 2 + 10; 3 + 10]; [1 + 20; 2 + 20; 3 + 20]]).
Proof. reflexivity. Qed.

(** ** The kernel *)

Lemma sumsq_diff (a b : vec) :
  sumsq (map (fun p => fst p - snd p) (combine a b)) = sqdist a b.
Proof.
  unfold sumsq, sqdist. rewrite map_map. f_equal.
  apply map_ext. intros p. ring.
Qed.

Lemma sqdist_diag (a : vec) : sqdist a a = 0.
Proof.
  induction a as [|x a IH]; [reflexivity|].
  change (sqdist (x :: a) (x :: a)) with ((x - x) ^ 2 + sqdist a a).
  rewrite IH. ring.
Qed.

Lemma kernel_on_vectors (self : SquaredExponentialKernel) (a b : vec) :
  length a = length b ->
  SquaredExponentialKernel_call self (Arr1 a) (Arr1 b) =
  Ok (sigma_f self * exp (- sqdist a b / (2 * length_ self ^ 2))).
Proof.
  intros Hlen. unfold SquaredExponentialKernel_call.
  rewrite (np_sub_vectors a b Hlen). unfold bind.
  rewrite norm_squared. simpl entries. now rewrite sumsq_diff.
Qed.

Lemma kernel_same_vector (self : SquaredExponentialKernel) (a : vec) :
  SquaredExponentialKernel_call self (Arr1 a) (Arr1 a) = Ok (sigma_f self).
Proof.
  rewrite (kernel_on_vectors self a a eq_refl), sqdist_diag.
  f_equal. unfold Rdiv. rewrite Ropp_0, Rmult_0_l, exp_0. ring.
Qed.

(** C9: on two vectors of one length the kernel returns
    [sigma_f * exp (- ||a - b||^2 / (2 * length^2))], and on a vector
    paired with itself it returns [sigma_f].  The lengthscale is nonzero,
    as the specification's kernel requires: the division is by
    [2 * length^2]. *)
Theorem kernel_value (self : SquaredExponentialKernel) (a b : vec) :
  length_ self <> 0 ->
  length a = length b ->
  SquaredExponentialKernel_call self (Arr1 a) (Arr1 b) =
    Ok (sigma_f self * exp (- sqdist a b / (2 * length_ self ^ 2))) /\
  SquaredExponentialKernel_call self (Arr1 a) (Arr1 a) = Ok (sigma_f self).
Proof.
  intros _ Hlen. split.
  - now apply kernel_on_vectors.
  - apply kernel_same_vector.
Qed.

Lemma kernel_value_witness :
  SquaredExponentialKernel_call {| sigma_f := 1; length_ := 1 |}
      (Arr1 [0; 1]) (Arr1 [2; 1]) =
    Ok (1 * exp (- sqdist [0; 1] [2; 1] / (2 * 1 ^ 2))) /\
  SquaredExponentialKernel_call {| sigma_f := 1; length_ := 1 |}
      (Arr1 [0; 1]) (Arr1 [0; 1]) = Ok 1.
Proof.
  apply (kernel_value {| sigma_f := 1; length_ := 1 |} [0; 1] [2; 1]).
  - simpl. lra.
  - reflexivity.
Defined.

(** C10: the kernel is symmetric in its two arguments, whatever their
    shapes: both orders raise the same exception or return the same
    value.  The lengthscale is nonzero, as for C9. *)
Theorem kernel_symmetric (self : SquaredExponentialKernel) (a b : point) :
  length_ self <> 0 ->
  SquaredExponentialKernel_call self a b =
  SquaredExponentialKernel_call self b a.
Proof.
  intros _. unfold SquaredExponentialKernel_call.
  rewrite (np_sub_swap b a).
  destruct (np_sub b a) as [D|e]; unfold bind; [|reflexivity].
  now rewrite !norm_squared, sumsq_entries_opp.
Qed.

Lemma kernel_symmetric_witness :
  SquaredExponentialKernel_call {| sigma_f := 2; length_ := 1 |}
      (Arr1 [0; 1]) (Arr1 [2; 5]) =
  SquaredExponentialKernel_call {| sigma_f := 2; length_ := 1 |}
      (Arr1 [2; 5]) (Arr1 [0; 1]).
Proof.
  apply (kernel_symmetric {| sigma_f := 2; length_ := 1 |}). simpl. lra.
Defined.

(** ** Covariance-matrix assembly *)

Lemma mapM_total (A B : Type) (f : A -> result B) (g : A -> B) (l : list A) :
  (forall x, In x l -> f x = Ok (g x)) -> mapM f l = Ok (map g l).
Proof.
  induction l as [|x l IH]; intros H; simpl; [reflexivity|].
  rewrite (H x) by (left; reflexivity). simpl.
  rewrite IH by (intros y Hy; apply H; right; exact Hy). reflexivity.
Qed.

Lemma mapM_raise (A B : Type) (f : A -> result B) (E : exn) (l : list A) :
  (forall x e, In x l -> f x = Raise e -> e = E) ->
  (exists x e, In x l /\ f x = Raise e) ->
  mapM f l = Raise E.
Proof.
  induction l as [|x l IH]; intros Hall [y [e [Hin Hy]]]; [destruct Hin|].
  simpl. destruct (f x) as [v|e'] eqn:Hx; simpl.
  - destruct Hin as [->|Hin]; [congruence|].
    rewrite IH; [reflexivity| |].
    + intros z e0 Hz. apply Hall. right. exact Hz.
    + exists y, e. split; assumption.
  - f_equal. apply (Hall x e'); [left; reflexivity|exact Hx].
Qed.

Lemma cov_matrix_total (k : kernel) (f : point -> point -> R)
    (x1 x2 : list point) :
  evaluates k f x1 x2 ->
  cov_matrix x1 x2 k = Ok (np_array (cov_rows f x1 x2)).
Proof.
  intros H. unfold cov_matrix.
  rewrite (mapM_total (fun b => mapM (fun a => k a b) x1)
                      (fun b => map (fun a => f a b) x1)).
  - reflexivity.
  - intros b Hb. apply mapM_total. intros a Ha. apply H; assumption.
Qed.

Lemma np_array_cov_rows (f : point -> point -> R) (x1 x2 : list point) :
  x2 <> [] ->
  np_array (cov_rows f x1 x2) =
  Arr2 (length x2) (length x1) (cov_rows f x1 x2).
Proof.
  destruct x2 as [|b x2]; [congruence|]. intros _.
  unfold cov_rows. simpl. now rewrite !length_map.
Qed.

Lemma cov_rows_wf (f : point -> point -> R) (x1 x2 : list point) :
  wf_rows (length x2) (length x1) (cov_rows f x1 x2).
Proof.
  unfold wf_rows, cov_rows. split.
  - apply length_map.
  - apply Forall_forall. intros row Hrow. apply in_map_iff in Hrow.
    destruct Hrow as [b [<- _]]. apply length_map.
Qed.

Lemma cov_rows_nth (f : point -> point -> R) (x1 x2 : list point)
    (i j : nat) (d : point) :
  (i < length x1)%nat -> (j < length x2)%nat ->
  nth i (nth j (cov_rows f x1 x2) []) 0 = f (nth i x1 d) (nth j x2 d).
Proof.
  intros Hi Hj. unfold cov_rows.
  rewrite (nth_indep _ [] (map (fun a => f a d) x1))
    by (rewrite length_map; exact Hj).
  rewrite (map_nth (fun b => map (fun a => f a b) x1) x2 d j).
  rewrite (nth_indep _ 0 (f d (nth j x2 d)))
    by (rewrite length_map; exact Hi).
  exact (map_nth (fun a => f a (nth j x2 d)) x1 d i).
Qed.

(** The rows of the source are the transpose of the specification's. *)
Lemma cov_rows_transpose (f : point -> point -> R) (X Y : list point) :
  cov_rows f X Y = transpose (length Y) (spec_cov_rows f X Y).
Proof.
  unfold cov_rows, transpose, spec_cov_rows, col.
  rewrite <- (map_seq_nth (fun b => map (fun a => f a b) X) Y (Scalar 0)).
  apply map_ext_in. intros j Hj. apply in_seq in Hj.
  rewrite map_map. apply map_ext. intros a.
  rewrite (nth_indep _ 0 (f a (Scalar 0))) by (rewrite length_map; lia).
  symmetry. exact (map_nth (fun b => f a b) Y (Scalar 0) j).
Qed.

(** C3, as the source has it: [cov_matrix X Y k] has one row per element
    of [Y] and one column per element of [X] (q-by-p for p = |X|,
    q = |Y| >= 1), and its entry in row [j], column [i] is
    [k (X[i], Y[j])]. *)
Theorem cov_matrix_entries (k : kernel) (f : point -> point -> R)
    (X Y : list point) :
  evaluates k f X Y ->
  Y <> [] ->
  exists M,
    cov_matrix X Y k = Ok (Arr2 (length Y) (length X) M) /\
    wf_rows (length Y) (length X) M /\
    forall i j d, (i < length X)%nat -> (j < length Y)%nat ->
      nth i (nth j M []) 0 = f (nth i X d) (nth j Y d).
Proof.
  intros Hk HY. exists (cov_rows f X Y). split; [|split].
  - rewrite (cov_matrix_total Hk). now rewrite np_array_cov_rows.
  - apply cov_rows_wf.
  - intros i j d Hi Hj. now apply cov_rows_nth.
Qed.

Lemma kernel_on_scalars (self : SquaredExponentialKernel) (x y : R) :
  SquaredExponentialKernel_call self (Scalar x) (Scalar y) =
  Ok (value_of (SquaredExponentialKernel_call self) (Scalar x) (Scalar y)).
Proof. reflexivity. Qed.

Lemma kernel_on_equal_scalars (self : SquaredExponentialKernel) (x : R) :
  value_of (SquaredExponentialKernel_call self) (Scalar x) (Scalar x) =
  sigma_f self.
Proof.
  unfold value_of, SquaredExponentialKernel_call.
  change (np_sub (Scalar x) (Scalar x)) with (Ok (Scalar (x - x))).
  unfold bind. rewrite norm_squared. unfold entries, sumsq, rsum. simpl map.
  simpl fold_right.
  replace (- ((x - x) * (x - x) + 0) / (2 * length_ self ^ 2)) with 0
    by (unfold Rdiv; ring).
  rewrite exp_0. ring.
Qed.

Lemma cov_matrix_entries_witness :
  exists M,
    cov_matrix [Scalar 0] [Scalar 0; Scalar 1]
      (SquaredExponentialKernel_call default_kernel) = Ok (Arr2 2 1 M) /\
    wf_rows 2 1 M /\
    forall i j d, (i < 1)%nat -> (j < 2)%nat ->
      nth i (nth j M []) 0 =
      value_of (SquaredExponentialKernel_call default_kernel)
               (nth i [Scalar 0] d) (nth j [Scalar 0; Scalar 1] d).
Proof.
  apply (@cov_matrix_entries
           (SquaredExponentialKernel_call default_kernel)
           (value_of (SquaredExponentialKernel_call default_kernel))
           [Scalar 0] [Scalar 0; Scalar 1]).
  - intros a b [<-|[]] [<-|[<-|[]]]; reflexivity.
  - discriminate.
Defined.

(** C3 as stated fails: for p = 1 and q = 2 the result is not 1-by-2. *)
Lemma cov_matrix_shape_counterexample :
  ~ exists M,
      cov_matrix [Scalar 0] [Scalar 0; Scalar 1]
        (SquaredExponentialKernel_call default_kernel) =
      Ok (Arr2 (length [Scalar 0]) (length [Scalar 0; Scalar 1]) M).
Proof.
  intros [M H].
  rewrite (@cov_matrix_total _
             (value_of (SquaredExponentialKernel_call default_kernel))) in H.
  - discriminate H.
  - intros a b [<-|[]] [<-|[<-|[]]]; reflexivity.
Qed.

(** ** The inverse *)

Lemma np_linalg_inv_ok (n : nat) (d : list vec) :
  invertible n d ->
  exists d', np_linalg_inv (Arr2 n n d) = Ok (Arr2 n n d') /\
             is_inverse n d d'.
Proof.
  intros H. unfold np_linalg_inv. rewrite Nat.eqb_refl.
  destruct (excluded_middle_informative (invertible n d)) as [Hi|Hn];
    [|contradiction].
  destruct (constructive_indefinite_description _ Hi) as [d' Hd']. simpl.
  exists d'. split; [reflexivity|exact Hd'].
Qed.

Lemma np_linalg_inv_sound (A B : ndarray) :
  np_linalg_inv A = Ok B ->
  exists n d d', A = Arr2 n n d /\ B = Arr2 n n d' /\ is_inverse n d d'.
Proof.
  destruct A as [x|v|r c d]; simpl; try discriminate.
  destruct (Nat.eqb_spec r c) as [<-|_]; [|discriminate].
  destruct (excluded_middle_informative (invertible r d)) as [Hi|_];
    [|discriminate].
  destruct (constructive_indefinite_description _ Hi) as [d' Hd']. simpl.
  intros H. injection H as <-. exists r, d, d'. auto.
Qed.

Lemma np_linalg_inv_singular (n : nat) (d : list vec) :
  ~ invertible n d -> np_linalg_inv (Arr2 n n d) = Raise LinAlgError.
Proof.
  intros H. unfold np_linalg_inv. rewrite Nat.eqb_refl.
  destruct (excluded_middle_informative (invertible n d)); [contradiction|].
  reflexivity.
Qed.

Lemma wf_rows_0 (d : list vec) : wf_rows 0 0 d -> d = [].
Proof. intros [H _]. now apply length_zero_iff_nil. Qed.

Lemma wf_rows_1 (d : list vec) : wf_rows 1 1 d -> exists x, d = [[x]].
Proof.
  intros [Hlen Hrows].
  destruct d as [|row [|? ?]]; try discriminate.
  inversion Hrows as [|? ? Hrow _]; subst.
  destruct row as [|x [|? ?]]; try discriminate. now exists x.
Qed.

Lemma is_inverse_empty : is_inverse 0 [] [].
Proof. repeat split. constructor. Qed.

Lemma is_inverse_1 (a : R) : a <> 0 -> is_inverse 1 [[a]] [[/ a]].
Proof.
  intros Ha. unfold is_inverse, wf_rows, matmul, vecmat, col, dotp, rsum, table.
  simpl. repeat split.
  - repeat constructor.
  - do 2 f_equal. field. exact Ha.
  - do 2 f_equal. field. exact Ha.
Qed.

Lemma np_linalg_inv_empty : np_linalg_inv (Arr2 0 0 []) = Ok (Arr2 0 0 []).
Proof.
  destruct (@np_linalg_inv_ok 0 []) as [d' [H [Hwf _]]].
  - exists []. exact is_inverse_empty.
  - rewrite H. now rewrite (wf_rows_0 Hwf).
Qed.

Lemma np_linalg_inv_1 (a : R) :
  a <> 0 -> np_linalg_inv (Arr2 1 1 [[a]]) = Ok (Arr2 1 1 [[/ a]]).
Proof.
  intros Ha.
  destruct (@np_linalg_inv_ok 1 [[a]]) as [d' [H [Hwf [Hr _]]]].
  - exists [[/ a]]. now apply is_inverse_1.
  - rewrite H. destruct (wf_rows_1 Hwf) as [x ->]. do 4 f_equal.
    unfold matmul, vecmat, col, dotp, rsum, table in Hr. simpl in Hr.
    injection Hr as Hr. apply (Rmult_eq_reg_l a); [|exact Ha].
    rewrite Rinv_r by exact Ha. lra.
Qed.

(** ** Construction *)

Lemma scaled_nth (c : R) (d : list vec) (i j : nat) :
  nth j (nth i (map (map (Rmult c)) d) []) 0 = c * nth j (nth i d []) 0.
Proof.
  pose proof (map_nth (map (Rmult c)) d [] i) as Hrow.
  change (map (Rmult c) []) with (@nil R) in Hrow. rewrite Hrow.
  pose proof (map_nth (Rmult c) (nth i d []) 0 j) as Hent.
  rewrite Rmult_0_r in Hent. exact Hent.
Qed.

Lemma bdim_refl (n : nat) : bdim n n = Ok n.
Proof. unfold bdim. now rewrite Nat.eqb_refl. Qed.

Lemma stabilize_training (k : kernel) (f : point -> point -> R)
    (X : list point) (sigma : R) :
  evaluates k f X X ->
  (K <- cov_matrix X X k ;;
   np_add K (np_scale (stabilization + sigma) (np_identity (length X)))) =
  Ok (Arr2 (length X) (length X) (training_matrix f X sigma)).
Proof.
  intros Hk. rewrite (cov_matrix_total Hk). unfold bind.
  destruct X as [|x X'] eqn:HX; [reflexivity|]. rewrite <- HX in *.
  assert (Hne : X <> []) by (rewrite HX; discriminate).
  rewrite (np_array_cov_rows f X Hne).
  unfold np_add, np_binop, np_identity, np_scale, vrows, vcols, ndim.
  rewrite bdim_refl. unfold bind. simpl Nat.max. cbv iota beta.
  do 2 f_equal. apply table_ext. intros i j Hi Hj.
  rewrite !bget_matrix by assumption.
  rewrite (cov_rows_nth f X X (Scalar 0)) by assumption.
  rewrite scaled_nth, table_nth by assumption.
  destruct (Nat.eqb i j); ring.
Qed.

Lemma stabilized_symmetric (f : point -> point -> R) (X : list point)
    (sigma : R) :
  (forall a b, In a X -> In b X -> f a b = f b a) ->
  training_matrix f X sigma = stabilized_spec f X sigma.
Proof.
  intros Hsym. apply table_ext. intros i j Hi Hj.
  rewrite (Hsym (nth j X (Scalar 0)) (nth i X (Scalar 0)))
    by (apply nth_In; assumption).
  destruct (Nat.eqb_spec i j) as [->|_]; ring.
Qed.

Lemma GPR_init_ok (k : kernel) (f : point -> point -> R) (X : list point)
    (y : vec) (sigma : R) :
  evaluates k f X X ->
  invertible (length X) (training_matrix f X sigma) ->
  exists Ki,
    is_inverse (length X) (training_matrix f X sigma) Ki /\
    GPR_init X y k sigma =
    Ok {| noise := sigma; data_x := X; data_y := y;
          covariance_function := k;
          _inverse_of_covariance_matrix_of_input :=
            Arr2 (length X) (length X) Ki;
          _memory := None |}.
Proof.
  intros Hk Hinv.
  destruct (np_linalg_inv_ok Hinv) as [Ki [HKi Hinverse]].
  exists Ki. split; [exact Hinverse|].
  unfold GPR_init.
  pose proof (stabilize_training sigma Hk) as HS.
  destruct (cov_matrix X X k) as [K|e]; [|discriminate HS].
  unfold bind in HS |- *. rewrite HS, HKi. reflexivity.
Qed.

Lemma GPR_init_inv (k : kernel) (f : point -> point -> R) (X : list point)
    (y : vec) (sigma : R) (g : GPR) :
  evaluates k f X X ->
  GPR_init X y k sigma = Ok g ->
  exists Ki,
    is_inverse (length X) (training_matrix f X sigma) Ki /\
    g = {| noise := sigma; data_x := X; data_y := y;
           covariance_function := k;
           _inverse_of_covariance_matrix_of_input :=
             Arr2 (length X) (length X) Ki;
           _memory := None |}.
Proof.
  intros Hk Hg. unfold GPR_init in Hg.
  pose proof (stabilize_training sigma Hk) as HS.
  destruct (cov_matrix X X k) as [K|e]; [|discriminate HS].
  unfold bind in HS, Hg. rewrite HS in Hg.
  destruct (np_linalg_inv _) as [B|e] eqn:HB; [|discriminate Hg].
  apply np_linalg_inv_sound in HB.
  destruct HB as [n [d [d' [Hd [-> Hinverse]]]]].
  inversion Hd; subst n d. injection Hg as <-.
  exists d'. split; [exact Hinverse|reflexivity].
Qed.

(** ** Prediction *)

Lemma length_vecmat (u : vec) (c : nat) (d : list vec) :
  length (vecmat u c d) = c.
Proof. unfold vecmat. now rewrite length_map, length_seq. Qed.

Lemma GPR_predict_ok (g : GPR) (f : point -> point -> R) (Ki : list vec)
    (Q : list point) :
  Q <> [] ->
  evaluates (covariance_function g) f (data_x g ++ Q) Q ->
  _inverse_of_covariance_matrix_of_input g =
    Arr2 (length (data_x g)) (length (data_x g)) Ki ->
  length (data_y g) = length (data_x g) ->
  GPR_predict g Q =
  Ok (set_memory g
        {| mean := Arr1 (posterior_mean f (data_x g) (data_y g) Ki Q);
           covariance_matrix :=
             Arr2 (length Q) (length Q) (posterior_cov f (data_x g) Ki Q);
           variance :=
             Arr1 (diagonal (length Q) (posterior_cov f (data_x g) Ki Q)) |},
      Arr1 (posterior_mean f (data_x g) (data_y g) Ki Q)).
Proof.
  intros HQ Hk HKi Hy. unfold GPR_predict.
  assert (Hk1 : evaluates (covariance_function g) f (data_x g) Q)
    by (intros a b Ha Hb; apply Hk; [apply in_or_app; left|]; assumption).
  assert (Hk2 : evaluates (covariance_function g) f Q Q)
    by (intros a b Ha Hb; apply Hk; [apply in_or_app; right|]; assumption).
  rewrite (cov_matrix_total Hk1), (cov_matrix_total Hk2), HKi.
  rewrite !np_array_cov_rows by exact HQ.
  set (n := length (data_x g)). set (m := length Q).
  cbn [bind np_T np_dot]. rewrite Hy. fold n. rewrite Nat.eqb_refl.
  cbn [bind np_T np_dot]. rewrite length_vecmat, Nat.eqb_refl.
  cbn [bind np_T np_dot np_flatten]. rewrite ?Nat.eqb_refl.
  cbn [bind]. unfold np_sub, np_binop. cbn [vrows vcols ndim].
  rewrite bdim_refl. cbn [bind]. simpl Nat.max. cbv iota beta.
  cbn [np_shape0 bind np_ones np_scale]. unfold np_add, np_binop.
  cbn [vrows vcols ndim]. rewrite length_map, repeat_length.
  assert (Hm : m <> 0%nat)
    by (unfold m; destruct Q; [congruence|discriminate]).
  assert (Hb1 : bdim m 1 = Ok m).
  { unfold bdim. destruct (Nat.eqb_spec m 1) as [->|H1]; [reflexivity|].
    destruct (Nat.eqb_spec 1 1); [reflexivity|congruence]. }
  rewrite Hb1, bdim_refl. cbn [bind]. simpl Nat.max. cbv iota beta.
  cbn [np_diag bind]. rewrite Nat.min_id.
  assert (HC : table m m
                 (fun i j =>
                    bget (Arr2 m m
                            (table m m
                               (fun i0 j0 =>
                                  bget (Arr2 m m (cov_rows f Q Q)) i0 j0 -
                                  bget (Arr2 m m
                                    (matmul (cov_rows f (data_x g) Q) m
                                      (matmul Ki m
                                        (transpose n
                                          (cov_rows f (data_x g) Q)))))
                                    i0 j0))) i j +
                    bget (Arr1 (map (Rmult stabilization) (repeat 1 m))) i j)
               = posterior_cov f (data_x g) Ki Q).
  { apply table_ext. intros i j Hi Hj.
    rewrite bget_matrix, table_nth by assumption.
    rewrite !bget_matrix by assumption.
    rewrite bget_vector by (rewrite length_map, repeat_length; exact Hj).
    replace (nth j (map (Rmult stabilization) (repeat 1 m)) 0)
      with stabilization; [reflexivity|].
    rewrite (nth_indep _ 0 (stabilization * 1))
      by (rewrite length_map, repeat_length; exact Hj).
    rewrite (map_nth (Rmult stabilization) (repeat 1 m) 1 j).
    rewrite nth_repeat. ring. }
  rewrite HC. reflexivity.
Qed.

(** ** Transposition and products *)

Lemma col_nth (d : list vec) (i j : nat) :
  (i < length d)%nat -> nth i (col j d) 0 = nth j (nth i d []) 0.
Proof.
  intros Hi. unfold col.
  rewrite (nth_indep _ 0 (nth j [] 0)) by (rewrite length_map; exact Hi).
  exact (map_nth (fun row => nth j row 0) d [] i).
Qed.

Lemma col_transpose (n c : nat) (d : list vec) (i : nat) :
  wf_rows n c d -> (i < n)%nat -> col i (transpose c d) = nth i d [].
Proof.
  intros [Hlen Hrows] Hi. unfold transpose, col at 1. rewrite map_map.
  assert (Hrow : length (nth i d []) = c).
  { rewrite Forall_forall in Hrows. apply Hrows, nth_In. lia. }
  rewrite <- Hrow.
  transitivity (map (fun x : R => x) (nth i d [])); [|apply map_id].
  rewrite <- (map_seq_nth (fun x => x) (nth i d []) 0).
  apply map_ext. intros j. apply col_nth. lia.
Qed.

(** [np.dot(y, Ki.T)] is the product of [Ki] with the column [y]. *)
Lemma vecmat_transpose (n : nat) (d : list vec) (y : vec) :
  wf_rows n n d -> vecmat y n (transpose n d) = matvec d y.
Proof.
  intros Hwf. unfold vecmat, matvec.
  destruct Hwf as [Hlen Hrows]. rewrite <- Hlen at 1.
  rewrite <- (map_seq_nth (fun row => dotp row y) d []).
  apply map_ext_in. intros j Hj. apply in_seq in Hj.
  rewrite (@col_transpose n n d j) by (try split; try assumption; lia).
  apply dotp_comm.
Qed.

Lemma diagonal_nth (n : nat) (d : list vec) (i : nat) :
  (i < n)%nat -> nth i (diagonal n d) 0 = nth i (nth i d []) 0.
Proof.
  intros Hi. unfold diagonal.
  rewrite (nth_indep _ 0 (nth 0 (nth 0 d []) 0))
    by (rewrite length_map, length_seq; exact Hi).
  rewrite (map_nth (fun i => nth i (nth i d []) 0) (seq 0 n) 0%nat i).
  now rewrite seq_nth by exact Hi.
Qed.

(** ** The regressor after construction *)

Lemma predict_after_init (k : kernel) (f : point -> point -> R)
    (X : list point) (y : vec) (sigma : R) (Q : list point) (g : GPR) :
  Q <> [] ->
  length y = length X ->
  evaluates k f (X ++ Q) (X ++ Q) ->
  GPR_init X y k sigma = Ok g ->
  exists Ki,
    is_inverse (length X) (training_matrix f X sigma) Ki /\
    _inverse_of_covariance_matrix_of_input g =
      Arr2 (length X) (length X) Ki /\
    GPR_predict g Q =
    Ok (set_memory g
          {| mean := Arr1 (posterior_mean f X y Ki Q);
             covariance_matrix :=
               Arr2 (length Q) (length Q) (posterior_cov f X Ki Q);
             variance :=
               Arr1 (diagonal (length Q) (posterior_cov f X Ki Q)) |},
        Arr1 (posterior_mean f X y Ki Q)).
Proof.
  intros HQ Hy Hk Hg.
  assert (HkX : evaluates k f X X)
    by (intros a b Ha Hb; apply Hk; apply in_or_app; left; assumption).
  destruct (@GPR_init_inv k f X y sigma g HkX Hg) as [Ki [Hinv ->]].
  exists Ki. split; [exact Hinv|]. split; [reflexivity|].
  apply GPR_predict_ok; simpl; try assumption; try reflexivity.
  intros a b Ha Hb. apply Hk; [exact Ha|apply in_or_app; right; exact Hb].
Qed.

(** C1: for a regressor built from [X], [y], [k] and [sigma], [predict]
    at a non-empty [Q] returns the vector [Kx^T (Ki y)], where [Kx] is
    the |X|-by-|Q| matrix of the kernel values [k (X[i], Q[j])] and [Ki]
    is the stored matrix, a two-sided inverse of the stabilized matrix
    the constructor assembled (kernel values of the training inputs plus
    [3e-7 + sigma] on the diagonal).  For a symmetric kernel that matrix
    is the specification's [K + (epsilon + sigma) I]. *)
Theorem predict_mean (k : kernel) (f : point -> point -> R)
    (X : list point) (y : vec) (sigma : R) (Q : list point) (g : GPR) :
  Q <> [] ->
  length y = length X ->
  evaluates k f (X ++ Q) (X ++ Q) ->
  GPR_init X y k sigma = Ok g ->
  exists Ki g',
    _inverse_of_covariance_matrix_of_input g =
      Arr2 (length X) (length X) Ki /\
    is_inverse (length X) (training_matrix f X sigma) Ki /\
    GPR_predict g Q =
    Ok (g', Arr1 (matvec (transpose (length Q) (spec_cov_rows f X Q))
                         (matvec Ki y))) /\
    ((forall a b, In a X -> In b X -> f a b = f b a) ->
     training_matrix f X sigma = stabilized_spec f X sigma).
Proof.
  intros HQ Hy Hk Hg.
  destruct (@predict_after_init k f X y sigma Q g HQ Hy Hk Hg)
    as [Ki [Hinv [HKi Hp]]].
  exists Ki. eexists. split; [exact HKi|]. split; [exact Hinv|].
  split; [|apply stabilized_symmetric].
  rewrite Hp. unfold posterior_mean.
  rewrite (@vecmat_transpose (length X) Ki y) by (apply Hinv).
  now rewrite cov_rows_transpose.
Qed.

(** ** A regressor with one training point *)

Lemma is_inverse_1_unique (a : R) (d : list vec) :
  a <> 0 -> is_inverse 1 [[a]] d -> d = [[/ a]].
Proof.
  intros Ha [Hwf [Hr _]]. destruct (wf_rows_1 Hwf) as [x ->].
  do 2 f_equal.
  unfold matmul, vecmat, col, dotp, rsum, table in Hr. simpl in Hr.
  injection Hr as Hr. apply (Rmult_eq_reg_l a); [|exact Ha].
  rewrite Rinv_r by exact Ha. lra.
Qed.

Lemma evaluates_value_of (k : kernel) (x1 x2 : list point) :
  (forall a b, In a x1 -> In b x2 -> exists v, k a b = Ok v) ->
  evaluates k (value_of k) x1 x2.
Proof.
  intros H a b Ha Hb. destruct (H a b Ha Hb) as [v Hv].
  unfold value_of. now rewrite Hv.
Qed.

Lemma GPR_init_single (k : kernel) (x : point) (y0 sigma : R) :
  (exists v, k x x = Ok v) ->
  value_of k x x + (stabilization + sigma) <> 0 ->
  GPR_init [x] [y0] k sigma = Ok (single_point_regressor k x y0 sigma).
Proof.
  intros Hv Ha.
  assert (Hk : evaluates k (value_of k) [x] [x]).
  { apply evaluates_value_of. intros a b [<-|[]] [<-|[]]. exact Hv. }
  destruct (@GPR_init_ok k (value_of k) [x] [y0] sigma Hk) as [Ki [Hinv Hg]].
  - exists [[/ (value_of k x x + (stabilization + sigma))]].
    apply (is_inverse_1 Ha).
  - rewrite Hg. unfold single_point_regressor. do 3 f_equal.
    apply (is_inverse_1_unique Ha Hinv).
Qed.

Lemma default_kernel_at_zero :
  value_of (SquaredExponentialKernel_call default_kernel)
           (Scalar 0) (Scalar 0) = 1.
Proof. apply (kernel_on_equal_scalars default_kernel 0). Qed.

Lemma GPR_init_example (y0 sigma : R) :
  1 + (stabilization + sigma) <> 0 ->
  GPR_init [Scalar 0] [y0] (SquaredExponentialKernel_call default_kernel)
           sigma =
  Ok (single_point_regressor (SquaredExponentialKernel_call default_kernel)
                             (Scalar 0) y0 sigma).
Proof.
  intros H. apply GPR_init_single.
  - eexists. reflexivity.
  - now rewrite default_kernel_at_zero.
Qed.

Lemma default_kernel_evaluates (l1 l2 : list R) :
  evaluates (SquaredExponentialKernel_call default_kernel)
            (value_of (SquaredExponentialKernel_call default_kernel))
            (map Scalar l1) (map Scalar l2).
Proof.
  intros a b Ha Hb. apply in_map_iff in Ha. apply in_map_iff in Hb.
  destruct Ha as [x [<- _]]. destruct Hb as [z [<- _]].
  apply kernel_on_scalars.
Qed.

Lemma predict_mean_witness :
  exists Ki g',
    _inverse_of_covariance_matrix_of_input
      (single_point_regressor (SquaredExponentialKernel_call default_kernel)
                              (Scalar 0) 5 (1 / 100)) =
      Arr2 1 1 Ki /\
    is_inverse 1
      (training_matrix
         (value_of (SquaredExponentialKernel_call default_kernel))
         [Scalar 0] (1 / 100)) Ki /\
    GPR_predict
      (single_point_regressor (SquaredExponentialKernel_call default_kernel)
                              (Scalar 0) 5 (1 / 100))
      [Scalar 0; Scalar 1] =
    Ok (g', Arr1 (matvec
                    (transpose 2
                       (spec_cov_rows
                          (value_of
                             (SquaredExponentialKernel_call default_kernel))
                          [Scalar 0] [Scalar 0; Scalar 1]))
                    (matvec Ki [5]))) /\
    ((forall a b, In a [Scalar 0] -> In b [Scalar 0] ->
        value_of (SquaredExponentialKernel_call default_kernel) a b =
        value_of (SquaredExponentialKernel_call default_kernel) b a) ->
     training_matrix
       (value_of (SquaredExponentialKernel_call default_kernel))
       [Scalar 0] (1 / 100) =
     stabilized_spec
       (value_of (SquaredExponentialKernel_call default_kernel))
       [Scalar 0] (1 / 100)).
Proof.
  apply (@predict_mean (SquaredExponentialKernel_call default_kernel)
           (value_of (SquaredExponentialKernel_call default_kernel))
           [Scalar 0] [5] (1 / 100) [Scalar 0; Scalar 1]).
  - discriminate.
  - reflexivity.
  - apply (default_kernel_evaluates [0; 0; 1] [0; 0; 1]).
  - apply GPR_init_example. unfold stabilization. lra.
Defined.

(** C4: for a non-empty training set, a non-negative noise variance and
    a symmetric kernel whose stabilized matrix is invertible,
    construction succeeds and stores a two-sided inverse of the n-by-n
    matrix whose entry [i][j] is [k (X[i], X[j])] off the diagonal and
    [k (X[i], X[i]) + (3e-7 + sigma)] on it. *)
Theorem init_stores_inverse (k : kernel) (f : point -> point -> R)
    (X : list point) (y : vec) (sigma : R) :
  X <> [] ->
  0 <= sigma ->
  evaluates k f X X ->
  (forall a b, In a X -> In b X -> f a b = f b a) ->
  invertible (length X) (stabilized_spec f X sigma) ->
  exists g Ki,
    GPR_init X y k sigma = Ok g /\
    _inverse_of_covariance_matrix_of_input g =
      Arr2 (length X) (length X) Ki /\
    is_inverse (length X) (stabilized_spec f X sigma) Ki /\
    wf_rows (length X) (length X) (stabilized_spec f X sigma) /\
    forall i j, (i < length X)%nat -> (j < length X)%nat ->
      nth j (nth i (stabilized_spec f X sigma) []) 0 =
      if Nat.eqb i j
      then f (nth i X (Scalar 0)) (nth i X (Scalar 0)) +
           (stabilization + sigma)
      else f (nth i X (Scalar 0)) (nth j X (Scalar 0)).
Proof.
  intros _ _ Hk Hsym Hinv.
  rewrite <- (stabilized_symmetric f X sigma Hsym) in Hinv.
  destruct (@GPR_init_ok k f X y sigma Hk Hinv) as [Ki [HKi Hg]].
  rewrite (stabilized_symmetric f X sigma Hsym) in HKi.
  eexists. exists Ki. split; [exact Hg|]. split; [reflexivity|].
  split; [exact HKi|]. split; [apply table_wf|].
  intros i j Hi Hj. unfold stabilized_spec. now rewrite table_nth.
Qed.

Lemma init_stores_inverse_witness :
  exists g Ki,
    GPR_init [Scalar 0] [5] (SquaredExponentialKernel_call default_kernel)
             (1 / 100) = Ok g /\
    _inverse_of_covariance_matrix_of_input g = Arr2 1 1 Ki /\
    is_inverse 1
      (stabilized_spec
         (value_of (SquaredExponentialKernel_call default_kernel))
         [Scalar 0] (1 / 100)) Ki /\
    wf_rows 1 1
      (stabilized_spec
         (value_of (SquaredExponentialKernel_call default_kernel))
         [Scalar 0] (1 / 100)) /\
    forall i j, (i < 1)%nat -> (j < 1)%nat ->
      nth j (nth i (stabilized_spec
                      (value_of
                         (SquaredExponentialKernel_call default_kernel))
                      [Scalar 0] (1 / 100)) []) 0 =
      if Nat.eqb i j
      then value_of (SquaredExponentialKernel_call default_kernel)
                    (nth i [Scalar 0] (Scalar 0))
                    (nth i [Scalar 0] (Scalar 0)) +
           (stabilization + 1 / 100)
      else value_of (SquaredExponentialKernel_call default_kernel)
                    (nth i [Scalar 0] (Scalar 0))
                    (nth j [Scalar 0] (Scalar 0)).
Proof.
  apply (@init_stores_inverse
           (SquaredExponentialKernel_call default_kernel)
           (value_of (SquaredExponentialKernel_call default_kernel))
           [Scalar 0] [5] (1 / 100)).
  - discriminate.
  - lra.
  - apply (default_kernel_evaluates [0] [0]).
  - intros a b [<-|[]] [<-|[]]. reflexivity.
  - exists [[/ (value_of (SquaredExponentialKernel_call default_kernel)
                         (Scalar 0) (Scalar 0) +
                (stabilization + 1 / 100))]].
    apply is_inverse_1. rewrite default_kernel_at_zero.
    unfold stabilization. lra.
Defined.

(** C5, as the source has it: [predict] returns the mean vector alone and
    stores in [_memory] the mean (of length m), the m-by-m covariance
    matrix and the variance vector, the variance being the diagonal of
    the stored covariance matrix. *)
Theorem predict_result (k : kernel) (f : point -> point -> R)
    (X : list point) (y : vec) (sigma : R) (Q : list point) (g : GPR) :
  Q <> [] ->
  length y = length X ->
  evaluates k f (X ++ Q) (X ++ Q) ->
  GPR_init X y k sigma = Ok g ->
  exists g' mu C v,
    GPR_predict g Q = Ok (g', Arr1 mu) /\
    _memory g' = Some {| mean := Arr1 mu;
                         covariance_matrix := Arr2 (length Q) (length Q) C;
                         variance := Arr1 v |} /\
    length mu = length Q /\
    wf_rows (length Q) (length Q) C /\
    np_diag (Arr2 (length Q) (length Q) C) = Ok (Arr1 v) /\
    forall i, (i < length Q)%nat -> nth i v 0 = nth i (nth i C []) 0.
Proof.
  intros HQ Hy Hk Hg.
  destruct (@predict_after_init k f X y sigma Q g HQ Hy Hk Hg)
    as [Ki [_ [_ Hp]]].
  eexists. eexists. eexists. eexists. split; [exact Hp|].
  split; [reflexivity|]. split; [|split; [|split]].
  - unfold posterior_mean, matvec, cov_rows. now rewrite !length_map.
  - apply table_wf.
  - simpl. now rewrite Nat.min_id.
  - intros i Hi. now apply diagonal_nth.
Qed.

Lemma predict_result_witness :
  exists g' mu C v,
    GPR_predict
      (single_point_regressor (SquaredExponentialKernel_call default_kernel)
                              (Scalar 0) 5 (1 / 100))
      [Scalar 0; Scalar 1] = Ok (g', Arr1 mu) /\
    _memory g' = Some {| mean := Arr1 mu;
                         covariance_matrix := Arr2 2 2 C;
                         variance := Arr1 v |} /\
    length mu = 2%nat /\
    wf_rows 2 2 C /\
    np_diag (Arr2 2 2 C) = Ok (Arr1 v) /\
    forall i, (i < 2)%nat -> nth i v 0 = nth i (nth i C []) 0.
Proof.
  apply (@predict_result (SquaredExponentialKernel_call default_kernel)
           (value_of (SquaredExponentialKernel_call default_kernel))
           [Scalar 0] [5] (1 / 100) [Scalar 0; Scalar 1]).
  - discriminate.
  - reflexivity.
  - apply (default_kernel_evaluates [0; 0; 1] [0; 0; 1]).
  - apply GPR_init_example. unfold stabilization. lra.
Defined.

(** [predict] at one query point, for a regressor with one training
    point. *)
Lemma predict_single (k : kernel) (x : point) (y0 sigma : R) (q : point) :
  (exists v, k x q = Ok v) ->
  (exists v, k q q = Ok v) ->
  let c := / (value_of k x x + (stabilization + sigma)) in
  let mu := value_of k x q * (c * y0) in
  let v := value_of k q q - value_of k x q * (c * value_of k x q) +
           stabilization in
  GPR_predict (single_point_regressor k x y0 sigma) [q] =
  Ok (set_memory (single_point_regressor k x y0 sigma)
        {| mean := Arr1 [mu];
           covariance_matrix := Arr2 1 1 [[v]];
           variance := Arr1 [v] |},
      Arr1 [mu]).
Proof.
  intros Hxq Hqq c mu v.
  rewrite (@GPR_predict_ok (single_point_regressor k x y0 sigma)
             (value_of k)
             [[/ (value_of k x x + (stabilization + sigma))]] [q]).
  - cbv [posterior_mean posterior_cov reduction diagonal table matmul matvec
         vecmat transpose col cov_rows dotp rsum single_point_regressor
         data_x data_y map seq length combine fold_right fst snd nth].
    fold c.
    replace (value_of k x q * (y0 * c + 0) + 0) with mu
      by (unfold mu; ring).
    replace (value_of k q q - (value_of k x q * (c * value_of k x q + 0) + 0)
             + stabilization) with v by (unfold v; ring).
    reflexivity.
  - discriminate.
  - apply evaluates_value_of. simpl.
    intros a b [<-|[<-|[]]] [<-|[]]; assumption.
  - reflexivity.
  - reflexivity.
Qed.

(** C5 as stated fails: the value [predict] returns does not carry the
    covariance matrix.  Two regressors that differ in their noise return
    the same value at the same query and store different covariance
    matrices. *)
Lemma predict_return_omits_covariance :
  exists g1 g2 g1' g2' r1 r2 m1 m2,
    GPR_init [Scalar 0] [0] (SquaredExponentialKernel_call default_kernel)
             (1 / 100) = Ok g1 /\
    GPR_init [Scalar 0] [0] (SquaredExponentialKernel_call default_kernel)
             1 = Ok g2 /\
    GPR_predict g1 [Scalar 0] = Ok (g1', r1) /\
    GPR_predict g2 [Scalar 0] = Ok (g2', r2) /\
    r1 = r2 /\
    _memory g1' = Some m1 /\
    _memory g2' = Some m2 /\
    covariance_matrix m1 <> covariance_matrix m2.
Proof.
  pose (k := SquaredExponentialKernel_call default_kernel).
  assert (H1 : 1 + (stabilization + 1 / 100) <> 0)
    by (unfold stabilization; lra).
  assert (H2 : 1 + (stabilization + 1) <> 0) by (unfold stabilization; lra).
  assert (Hk : exists v, k (Scalar 0) (Scalar 0) = Ok v)
    by (eexists; reflexivity).
  do 8 eexists.
  split; [exact (GPR_init_example 0 H1)|].
  split; [exact (GPR_init_example 0 H2)|].
  split; [exact (@predict_single k (Scalar 0) 0 (1 / 100) (Scalar 0) Hk Hk)|].
  split; [exact (@predict_single k (Scalar 0) 0 1 (Scalar 0) Hk Hk)|].
  split; [f_equal; f_equal; ring|].
  split; [reflexivity|]. split; [reflexivity|].
  cbn [covariance_matrix]. fold k. unfold k at 1 2 3 4 5 6 7 8.
  rewrite !default_kernel_at_zero.
  intros Heq. injection Heq as Heq.
  pose proof (Rinv_r _ H1) as E1. pose proof (Rinv_r _ H2) as E2.
  unfold stabilization in *.
  set (c1 := / (1 + (3 / 10000000 + 1 / 100))) in *.
  set (c2 := / (1 + (3 / 10000000 + 1))) in *.
  lra.
Qed.

(** C8, as the source has it: [predict] never inspects the variance.
    Whenever the kernel evaluates and the shapes agree it returns
    normally, and entry [i] of the stored variance is
    [k (Q[i], Q[i]) - (Kx^T Ki Kx)[i][i] + 3e-7] as computed, whatever
    its sign. *)
Theorem predict_variance_unchecked (k : kernel) (f : point -> point -> R)
    (X : list point) (y : vec) (sigma : R) (Q : list point) (g : GPR) :
  Q <> [] ->
  length y = length X ->
  evaluates k f (X ++ Q) (X ++ Q) ->
  GPR_init X y k sigma = Ok g ->
  exists g' r mem v Ki,
    GPR_predict g Q = Ok (g', r) /\
    _memory g' = Some mem /\
    variance mem = Arr1 v /\
    length v = length Q /\
    _inverse_of_covariance_matrix_of_input g =
      Arr2 (length X) (length X) Ki /\
    forall i, (i < length Q)%nat ->
      nth i v 0 =
      f (nth i Q (Scalar 0)) (nth i Q (Scalar 0)) -
      nth i (nth i (reduction f X Ki Q) []) 0 + stabilization.
Proof.
  intros HQ Hy Hk Hg.
  destruct (@predict_after_init k f X y sigma Q g HQ Hy Hk Hg)
    as [Ki [_ [HKi Hp]]].
  eexists. eexists. eexists. eexists. exists Ki.
  split; [exact Hp|]. split; [reflexivity|]. split; [reflexivity|].
  split; [|split; [exact HKi|]].
  - unfold diagonal. now rewrite length_map, length_seq.
  - intros i Hi. rewrite diagonal_nth by exact Hi.
    unfold posterior_cov. rewrite table_nth by exact Hi.
    now rewrite (cov_rows_nth f Q Q (Scalar 0)) by exact Hi.
Qed.

Lemma predict_variance_unchecked_witness :
  exists g' r mem v Ki,
    GPR_predict
      (single_point_regressor (SquaredExponentialKernel_call default_kernel)
                              (Scalar 0) 5 (1 / 100))
      [Scalar 0; Scalar 1] = Ok (g', r) /\
    _memory g' = Some mem /\
    variance mem = Arr1 v /\
    length v = 2%nat /\
    _inverse_of_covariance_matrix_of_input
      (single_point_regressor (SquaredExponentialKernel_call default_kernel)
                              (Scalar 0) 5 (1 / 100)) = Arr2 1 1 Ki /\
    forall i, (i < 2)%nat ->
      nth i v 0 =
      value_of (SquaredExponentialKernel_call default_kernel)
               (nth i [Scalar 0; Scalar 1] (Scalar 0))
               (nth i [Scalar 0; Scalar 1] (Scalar 0)) -
      nth i (nth i (reduction
                      (value_of
                         (SquaredExponentialKernel_call default_kernel))
                      [Scalar 0] Ki [Scalar 0; Scalar 1]) []) 0 +
      stabilization.
Proof.
  apply (@predict_variance_unchecked
           (SquaredExponentialKernel_call default_kernel)
           (value_of (SquaredExponentialKernel_call default_kernel))
           [Scalar 0] [5] (1 / 100) [Scalar 0; Scalar 1]).
  - discriminate.
  - reflexivity.
  - apply (default_kernel_evaluates [0; 0; 1] [0; 0; 1]).
  - apply GPR_init_example. unfold stabilization. lra.
Defined.

(** C8 as stated fails: with one training point at 0, the default kernel
    and noise -1/2, [predict] at 0 returns normally and stores a variance
    below -9/10. *)
Lemma negative_variance_not_reported :
  exists g g' r mem v,
    GPR_init [Scalar 0] [0] (SquaredExponentialKernel_call default_kernel)
             (- (1 / 2)) = Ok g /\
    GPR_predict g [Scalar 0] = Ok (g', r) /\
    _memory g' = Some mem /\
    variance mem = Arr1 [v] /\
    v < - (9 / 10).
Proof.
  pose (k := SquaredExponentialKernel_call default_kernel).
  assert (H1 : 1 + (stabilization + - (1 / 2)) <> 0)
    by (unfold stabilization; lra).
  assert (Hk : exists v, k (Scalar 0) (Scalar 0) = Ok v)
    by (eexists; reflexivity).
  do 5 eexists.
  split; [exact (GPR_init_example 0 H1)|].
  split;
    [exact (@predict_single k (Scalar 0) 0 (- (1 / 2)) (Scalar 0) Hk Hk)|].
  split; [reflexivity|]. split; [reflexivity|].
  fold k. unfold k. rewrite !default_kernel_at_zero.
  pose proof (Rinv_r _ H1) as E1. unfold stabilization in *.
  set (c1 := / (1 + (3 / 10000000 + - (1 / 2)))) in *.
  lra.
Qed.

(** The stored covariance matrix: [3e-7] is added to every entry, on and
    off the diagonal. *)
Lemma posterior_cov_nth (f : point -> point -> R) (X : list point)
    (Ki : list vec) (Q : list point) (i j : nat) :
  (i < length Q)%nat -> (j < length Q)%nat ->
  nth j (nth i (posterior_cov f X Ki Q) []) 0 =
  nth j (nth i (cov_rows f Q Q) []) 0 -
  nth j (nth i (reduction f X Ki Q) []) 0 + stabilization.
Proof.
  intros Hi Hj. unfold posterior_cov. now rewrite table_nth.
Qed.

(** C2 at a failing input: one training point at 0 with output 5, the
    default kernel, noise 1/100, queries 0 and 1.  Row 0, column 1 of
    the stored covariance matrix is the entry of
    [Kxx - Kx^T Ki Kx] plus [3e-7]: an off-diagonal entry is changed. *)
Theorem predict_shifts_off_diagonal :
  let k := SquaredExponentialKernel_call default_kernel in
  let X := [Scalar 0] in
  let Q := [Scalar 0; Scalar 1] in
  exists g g' r mem C Ki,
    GPR_init X [5] k (1 / 100) = Ok g /\
    _inverse_of_covariance_matrix_of_input g = Arr2 1 1 Ki /\
    GPR_predict g Q = Ok (g', r) /\
    _memory g' = Some mem /\
    covariance_matrix mem = Arr2 2 2 C /\
    nth 1 (nth 0 C []) 0 =
      nth 1 (nth 0 (cov_rows (value_of k) Q Q) []) 0 -
      nth 1 (nth 0 (reduction (value_of k) X Ki Q) []) 0 +
      3 / 10000000 /\
    nth 1 (nth 0 C []) 0 <>
      nth 1 (nth 0 (cov_rows (value_of k) Q Q) []) 0 -
      nth 1 (nth 0 (reduction (value_of k) X Ki Q) []) 0.
Proof.
  intros k X Q.
  assert (H1 : 1 + (stabilization + 1 / 100) <> 0)
    by (unfold stabilization; lra).
  pose proof (GPR_init_example 5 H1) as Hg. fold k in Hg.
  destruct (@predict_after_init k (value_of k) X [5] (1 / 100) Q _
              ltac:(discriminate) eq_refl
              (default_kernel_evaluates [0; 0; 1] [0; 0; 1]) Hg)
    as [Ki [_ [HKi Hp]]].
  eexists. eexists. eexists. eexists. eexists. exists Ki.
  split; [exact Hg|]. split; [exact HKi|]. split; [exact Hp|].
  split; [reflexivity|]. split; [reflexivity|].
  assert (HC : nth 1 (nth 0 (posterior_cov (value_of k) X Ki Q) []) 0 =
               nth 1 (nth 0 (cov_rows (value_of k) Q Q) []) 0 -
               nth 1 (nth 0 (reduction (value_of k) X Ki Q) []) 0 +
               3 / 10000000).
  { apply (@posterior_cov_nth (value_of k) X Ki Q 0 1); simpl; lia. }
  split; [exact HC|]. rewrite HC. lra.
Qed.

(** ** Absent validation *)

Lemma GPR_init_empty (y : vec) (k : kernel) (sigma : R) :
  GPR_init [] y k sigma =
  Ok {| noise := sigma; data_x := []; data_y := y;
        covariance_function := k;
        _inverse_of_covariance_matrix_of_input := Arr2 0 0 [];
        _memory := None |}.
Proof.
  destruct (@GPR_init_ok k (fun _ _ => 0) [] y sigma) as [Ki [[Hwf _] Hg]].
  - intros a b [].
  - exists []. exact is_inverse_empty.
  - rewrite Hg. simpl. now rewrite (wf_rows_0 Hwf).
Qed.

(** C6, as the source has it: construction checks neither the number of
    training points nor the sign of the noise variance.  With no
    training point it succeeds and stores the empty matrix; otherwise it
    succeeds whenever the kernel evaluates on the training inputs and
    the matrix it assembles is invertible, for every real [sigma]. *)
Theorem init_unvalidated (k : kernel) (f : point -> point -> R)
    (X : list point) (y : vec) (sigma : R) :
  X = [] \/
  (evaluates k f X X /\ invertible (length X) (training_matrix f X sigma)) ->
  exists g,
    GPR_init X y k sigma = Ok g /\
    noise g = sigma /\
    data_x g = X /\
    (X = [] -> _inverse_of_covariance_matrix_of_input g = Arr2 0 0 []).
Proof.
  intros [->|[Hk Hinv]].
  - eexists. split; [apply GPR_init_empty|]. repeat split.
  - destruct (@GPR_init_ok k f X y sigma Hk Hinv) as [Ki [HKi Hg]].
    eexists. split; [exact Hg|]. split; [reflexivity|].
    split; [reflexivity|]. intros ->. simpl.
    destruct HKi as [Hwf _]. now rewrite (wf_rows_0 Hwf).
Qed.

Lemma init_unvalidated_witness :
  (exists g,
     GPR_init [] [] (SquaredExponentialKernel_call default_kernel)
              (1 / 100) = Ok g /\
     noise g = 1 / 100 /\
     data_x g = [] /\
     (@nil point = [] ->
      _inverse_of_covariance_matrix_of_input g = Arr2 0 0 [])) /\
  (exists g,
     GPR_init [Scalar 0] [5] (SquaredExponentialKernel_call default_kernel)
              (- (1 / 2)) = Ok g /\
     noise g = - (1 / 2) /\
     data_x g = [Scalar 0] /\
     ([Scalar 0] = [] ->
      _inverse_of_covariance_matrix_of_input g = Arr2 0 0 [])).
Proof.
  split.
  - apply (@init_unvalidated (SquaredExponentialKernel_call default_kernel)
             (fun _ _ => 0) [] [] (1 / 100)).
    left. reflexivity.
  - apply (@init_unvalidated (SquaredExponentialKernel_call default_kernel)
             (value_of (SquaredExponentialKernel_call default_kernel))
             [Scalar 0] [5] (- (1 / 2))).
    right. split.
    + apply (default_kernel_evaluates [0] [0]).
    + exists [[/ (value_of (SquaredExponentialKernel_call default_kernel)
                           (Scalar 0) (Scalar 0) +
                  (stabilization + - (1 / 2)))]].
      apply is_inverse_1. rewrite default_kernel_at_zero.
      unfold stabilization. lra.
Defined.

(** C6 as stated fails: a regressor is created from zero training
    points, and one is created with noise variance -1/2. *)
Lemma degenerate_inputs_accepted :
  (exists g,
     GPR_init [] [] (SquaredExponentialKernel_call default_kernel)
              (1 / 100) = Ok g) /\
  (exists g,
     GPR_init [Scalar 0] [5] (SquaredExponentialKernel_call default_kernel)
              (- (1 / 2)) = Ok g).
Proof.
  split.
  - eexists. apply GPR_init_empty.
  - eexists. apply GPR_init_example. unfold stabilization. lra.
Qed.

(** ** Shape errors *)

Lemma mapM_ok_inv (A B : Type) (f : A -> result B) (l : list A)
    (l' : list B) :
  mapM f l = Ok l' -> forall x, In x l -> exists v, f x = Ok v.
Proof.
  revert l'. induction l as [|x l IH]; intros l' H z Hz; [destruct Hz|].
  simpl in H. destruct (f x) as [v|e] eqn:Hx; [|discriminate H].
  simpl in H. destruct (mapM f l) as [vs|e] eqn:Hl; [|discriminate H].
  destruct Hz as [<-|Hz]; [now exists v|]. now apply (IH vs).
Qed.

Lemma mapM_raise_inv (A B : Type) (f : A -> result B) (l : list A)
    (e : exn) :
  mapM f l = Raise e -> exists x, In x l /\ f x = Raise e.
Proof.
  induction l as [|x l IH]; intros H; [discriminate H|].
  simpl in H. destruct (f x) as [v|e'] eqn:Hx.
  - simpl in H. destruct (mapM f l) as [vs|e''] eqn:Hl; [discriminate H|].
    injection H as ->. destruct (IH eq_refl) as [z [Hz Hfz]].
    exists z. split; [right; exact Hz|exact Hfz].
  - injection H as ->. exists x. split; [left; reflexivity|exact Hx].
Qed.

Lemma cov_matrix_raise (k : kernel) (E : exn) (x1 x2 : list point)
    (a b : point) (e : exn) :
  (forall a' b' e', k a' b' = Raise e' -> e' = E) ->
  In a x1 -> In b x2 -> k a b = Raise e ->
  cov_matrix x1 x2 k = Raise E.
Proof.
  intros Hall Ha Hb Hab. unfold cov_matrix.
  rewrite (@mapM_raise _ _ (fun b => mapM (fun a => k a b) x1) E x2);
    [reflexivity| |].
  - intros b' e' _ Hb'. apply mapM_raise_inv in Hb'.
    destruct Hb' as [a' [_ Ha']]. apply (Hall a' b' e' Ha').
  - exists b, E. split; [exact Hb|].
    apply mapM_raise.
    + intros a' e' _ Ha'. apply (Hall a' b e' Ha').
    + exists a, e. split; assumption.
Qed.

Lemma cov_matrix_ok_evaluates (k : kernel) (x1 x2 : list point)
    (K : ndarray) :
  cov_matrix x1 x2 k = Ok K -> evaluates k (value_of k) x1 x2.
Proof.
  unfold cov_matrix. intros H.
  destruct (mapM (fun b => mapM (fun a => k a b) x1) x2) as [rows|e] eqn:Hr;
    [|discriminate H].
  apply evaluates_value_of. intros a b Ha Hb.
  destruct (mapM_ok_inv _ _ Hr b Hb) as [row Hrow].
  apply (mapM_ok_inv _ _ Hrow a Ha).
Qed.

Lemma GPR_init_evaluates (k : kernel) (X : list point) (y : vec)
    (sigma : R) (g : GPR) :
  GPR_init X y k sigma = Ok g -> evaluates k (value_of k) X X.
Proof.
  unfold GPR_init. intros H.
  destruct (cov_matrix X X k) as [K|e] eqn:HK; [|discriminate H].
  apply (cov_matrix_ok_evaluates _ _ _ HK).
Qed.

Lemma kernel_raises_ValueError (self : SquaredExponentialKernel)
    (a b : point) (e : exn) :
  SquaredExponentialKernel_call self a b = Raise e -> e = ValueError.
Proof.
  unfold SquaredExponentialKernel_call, np_sub.
  destruct (np_binop Rminus a b) as [D|e'] eqn:HD; [discriminate|].
  simpl. intros H. injection H as <-. apply (np_binop_raise _ _ _ HD).
Qed.

Lemma kernel_mismatch (self : SquaredExponentialKernel) (a b : vec) :
  length a <> length b -> length a <> 1%nat -> length b <> 1%nat ->
  SquaredExponentialKernel_call self (Arr1 a) (Arr1 b) = Raise ValueError.
Proof.
  intros Hab Ha Hb.
  unfold SquaredExponentialKernel_call, np_sub, np_binop.
  cbn [vrows vcols]. rewrite bdim_refl. cbn [bind]. unfold bdim.
  destruct (Nat.eqb_spec (length a) (length b)); [contradiction|].
  destruct (Nat.eqb_spec (length a) 1); [contradiction|].
  destruct (Nat.eqb_spec (length b) 1); [contradiction|]. reflexivity.
Qed.

Lemma predict_mismatch (self : SquaredExponentialKernel) (g : GPR)
    (Q : list point) (a b : vec) :
  covariance_function g = SquaredExponentialKernel_call self ->
  In (Arr1 a) (data_x g) -> In (Arr1 b) Q ->
  length a <> length b -> length a <> 1%nat -> length b <> 1%nat ->
  GPR_predict g Q = Raise ValueError.
Proof.
  intros Hk Ha Hb Hab Ha1 Hb1. unfold GPR_predict. rewrite Hk.
  rewrite (@cov_matrix_raise (SquaredExponentialKernel_call self) ValueError
             (data_x g) Q (Arr1 a) (Arr1 b) ValueError).
  - reflexivity.
  - intros a' b' e'. apply kernel_raises_ValueError.
  - exact Ha.
  - exact Hb.
  - now apply kernel_mismatch.
Qed.

Lemma predict_empty_query (k : kernel) (X : list point) (y : vec)
    (sigma : R) (g : GPR) :
  X <> [] -> GPR_init X y k sigma = Ok g ->
  GPR_predict g [] = Raise ValueError.
Proof.
  intros HX Hg.
  destruct (@GPR_init_inv k (value_of k) X y sigma g
              (GPR_init_evaluates _ _ _ _ Hg) Hg) as [Ki [_ ->]].
  unfold GPR_predict. cbn [data_x data_y covariance_function
    _inverse_of_covariance_matrix_of_input cov_matrix mapM bind np_array
    np_T np_dot].
  destruct (Nat.eqb (length y) (length X)); [|reflexivity].
  cbn [bind np_T np_dot]. rewrite length_vecmat.
  destruct X as [|x X]; [congruence|]. reflexivity.
Qed.

(** C7, as the source has it.  Neither [__init__] nor [predict] checks
    dimensions; the errors are NumPy's [ValueError], raised by the
    subtraction inside the kernel or by [np.dot].  For two vectors of
    different lengths, neither of length 1 (a vector of length 1 is
    broadcast): construction fails when both are training inputs, and
    [predict] fails when one is a training input and the other a query
    point.  [predict] with no query point fails on every regressor that
    has a training point. *)
Theorem shape_errors (self : SquaredExponentialKernel) (a b : vec) :
  length a <> length b -> length a <> 1%nat -> length b <> 1%nat ->
  (forall X y sigma,
     In (Arr1 a) X -> In (Arr1 b) X ->
     GPR_init X y (SquaredExponentialKernel_call self) sigma =
     Raise ValueError) /\
  (forall X y sigma g Q,
     GPR_init X y (SquaredExponentialKernel_call self) sigma = Ok g ->
     In (Arr1 a) X -> In (Arr1 b) Q ->
     GPR_predict g Q = Raise ValueError) /\
  (forall (k : kernel) X y sigma g,
     X <> [] -> GPR_init X y k sigma = Ok g ->
     GPR_predict g [] = Raise ValueError).
Proof.
  intros Hab Ha Hb. split; [|split].
  - intros X y sigma HaX HbX. unfold GPR_init.
    rewrite (@cov_matrix_raise (SquaredExponentialKernel_call self)
               ValueError X X (Arr1 a) (Arr1 b) ValueError).
    + reflexivity.
    + intros a' b' e'. apply kernel_raises_ValueError.
    + exact HaX.
    + exact HbX.
    + now apply kernel_mismatch.
  - intros X y sigma g Q Hg HaX HbQ.
    destruct (@GPR_init_inv _ _ X y sigma g
                (GPR_init_evaluates _ _ _ _ Hg) Hg) as [Ki [_ ->]].
    apply (@predict_mismatch self _ Q a b); try assumption; reflexivity.
  - intros k X y sigma g HX Hg. apply (@predict_empty_query k X y sigma g HX Hg).
Qed.

Lemma GPR_init_vector (self : SquaredExponentialKernel) (a : vec)
    (y0 sigma : R) :
  sigma_f self + (stabilization + sigma) <> 0 ->
  GPR_init [Arr1 a] [y0] (SquaredExponentialKernel_call self) sigma =
  Ok (single_point_regressor (SquaredExponentialKernel_call self)
                             (Arr1 a) y0 sigma).
Proof.
  intros H. apply GPR_init_single.
  - exists (sigma_f self). apply kernel_same_vector.
  - unfold value_of. now rewrite kernel_same_vector.
Qed.

Lemma shape_errors_witness :
  GPR_init [Arr1 [0; 0]; Arr1 [0; 0; 0]] [5; 5]
           (SquaredExponentialKernel_call default_kernel) (1 / 100) =
    Raise ValueError /\
  GPR_predict
    (single_point_regressor (SquaredExponentialKernel_call default_kernel)
                            (Arr1 [0; 0]) 5 (1 / 100))
    [Arr1 [0; 0; 0]] = Raise ValueError /\
  GPR_predict
    (single_point_regressor (SquaredExponentialKernel_call default_kernel)
                            (Arr1 [0; 0]) 5 (1 / 100))
    [] = Raise ValueError.
Proof.
  assert (Hg : GPR_init [Arr1 [0; 0]] [5]
                 (SquaredExponentialKernel_call default_kernel) (1 / 100) =
               Ok (single_point_regressor
                     (SquaredExponentialKernel_call default_kernel)
                     (Arr1 [0; 0]) 5 (1 / 100))).
  { apply GPR_init_vector. unfold stabilization. simpl. lra. }
  destruct (@shape_errors default_kernel [0; 0] [0; 0; 0])
    as [H1 [H2 H3]]; try (simpl; lia).
  split; [|split].
  - apply H1; simpl; auto.
  - apply (H2 [Arr1 [0; 0]] [5] (1 / 100) _ _ Hg); simpl; auto.
  - apply (H3 _ [Arr1 [0; 0]] [5] (1 / 100) _ ltac:(discriminate) Hg).
Defined.

(** C7 as stated fails: a regressor trained on a point of dimension 1
    answers a query of dimension 2. *)
Lemma dimension_mismatch_accepted :
  exists g g' r,
    GPR_init [Arr1 [0]] [5] (SquaredExponentialKernel_call default_kernel)
             (1 / 100) = Ok g /\
    GPR_predict g [Arr1 [1; 2]] = Ok (g', r).
Proof.
  do 3 eexists. split.
  - apply GPR_init_vector. unfold stabilization. simpl. lra.
  - apply predict_single; eexists; reflexivity.
Qed.

(** * Further properties of the kernel and of the regressor *)

(** ** Range and decay of the kernel *)

Lemma sqdist_cons (x y : R) (a b : vec) :
  sqdist (x :: a) (y :: b) = (x - y) ^ 2 + sqdist a b.
Proof. reflexivity. Qed.

Lemma sqdist_nonneg (a b : vec) : 0 <= sqdist a b.
Proof.
  revert b. induction a as [|x a IH]; intros [|y b];
    try (unfold sqdist, rsum; simpl; lra).
  rewrite sqdist_cons. pose proof (pow2_ge_0 (x - y)). pose proof (IH b). lra.
Qed.


Lemma square_pos (l : R) : l <> 0 -> 0 < l ^ 2.
Proof.
  intros Hl. simpl. rewrite Rmult_1_r.
  destruct (Rdichotomy _ _ Hl); nra.
Qed.

Lemma exponent_nonpos (l d : R) : l <> 0 -> 0 <= d -> - d / (2 * l ^ 2) <= 0.
Proof.
  intros Hl Hd.
  assert (Hpos : 0 < 2 * l ^ 2).
  { pose proof (square_pos Hl). lra. }
  unfold Rdiv. apply Rinv_0_lt_compat in Hpos.
  assert (0 <= d * / (2 * l ^ 2)) by (apply Rmult_le_pos; lra). lra.
Qed.


Lemma exp_le_1 (x : R) : x <= 0 -> 0 < exp x <= 1.
Proof.
  intros Hx. split; [apply exp_pos|].
  destruct Hx as [Hx | ->]; [|rewrite exp_0; lra].
  left. rewrite <- exp_0. now apply exp_increasing.
Qed.





(** X3: on two scalars, as the notebook calls it, the kernel returns
    [sigma_f * exp (- (x - y)^2 / (2 * length^2))], the value it returns
    on the one-element vectors [[x]] and [[y]]. *)
Theorem kernel_of_scalars (self : SquaredExponentialKernel) (x y : R) :
  length_ self <> 0 ->
  SquaredExponentialKernel_call self (Scalar x) (Scalar y) =
    Ok (sigma_f self * exp (- (x - y) ^ 2 / (2 * length_ self ^ 2))) /\
  SquaredExponentialKernel_call self (Scalar x) (Scalar y) =
    SquaredExponentialKernel_call self (Arr1 [x]) (Arr1 [y]).
Proof.
  intros _.
  assert (H : SquaredExponentialKernel_call self (Scalar x) (Scalar y) =
              Ok (sigma_f self *
                  exp (- (x - y) ^ 2 / (2 * length_ self ^ 2)))).
  { unfold SquaredExponentialKernel_call.
    change (np_sub (Scalar x) (Scalar y)) with (Ok (Scalar (x - y))).
    unfold bind. rewrite norm_squared. unfold entries, sumsq, rsum.
    do 3 f_equal. simpl. unfold Rdiv. ring. }
  split; [exact H|]. rewrite H.
  rewrite (kernel_on_vectors self [x] [y] eq_refl).
  do 3 f_equal. unfold sqdist, rsum. simpl. unfold Rdiv. ring.
Qed.

Lemma kernel_of_scalars_witness :
  SquaredExponentialKernel_call default_kernel (Scalar 3) (Scalar 1) =
    Ok (sigma_f default_kernel *
        exp (- (3 - 1) ^ 2 / (2 * length_ default_kernel ^ 2))) /\
  SquaredExponentialKernel_call default_kernel (Scalar 3) (Scalar 1) =
    SquaredExponentialKernel_call default_kernel (Arr1 [3]) (Arr1 [1]).
Proof.
  apply (@kernel_of_scalars default_kernel 3 1). simpl. lra.
Defined.

(** ** Success and failure of the assembly *)

Lemma np_sub_swap_kernel (self : SquaredExponentialKernel) (a b : point) :
  SquaredExponentialKernel_call self a b =
  SquaredExponentialKernel_call self b a.
Proof.
  unfold SquaredExponentialKernel_call. rewrite (np_sub_swap b a).
  destruct (np_sub b a) as [D|e]; unfold bind; [|reflexivity].
  now rewrite !norm_squared, sumsq_entries_opp.
Qed.

(** X4: [cov_matrix] returns a matrix exactly when the covariance
    function returns on every pair of a point of [x1] with a point of
    [x2]; when it raises, it raises an exception the covariance function
    raised on such a pair. *)
Theorem cov_matrix_succeeds_iff (k : kernel) (x1 x2 : list point) :
  ((exists K, cov_matrix x1 x2 k = Ok K) <->
   (forall a b, In a x1 -> In b x2 -> exists v, k a b = Ok v)) /\
  (forall e, cov_matrix x1 x2 k = Raise e ->
     exists a b, In a x1 /\ In b x2 /\ k a b = Raise e).
Proof.
  split; [split|].
  - intros [K HK] a b Ha Hb.
    exists (value_of k a b).
    apply (cov_matrix_ok_evaluates _ _ _ HK a b Ha Hb).
  - intros H. eexists.
    apply (cov_matrix_total (evaluates_value_of k x1 x2 H)).
  - intros e He. unfold cov_matrix in He.
    destruct (mapM (fun b => mapM (fun a => k a b) x1) x2) as [rows|e']
      eqn:Hr; [discriminate He|].
    injection He as ->.
    destruct (mapM_raise_inv _ _ Hr) as [b [Hb Hrow]].
    destruct (mapM_raise_inv _ _ Hrow) as [a [Ha Hab]].
    exists a, b. auto.
Qed.

(** X5: for a covariance function that is symmetric on the points of
    [X], the matrix [cov_matrix X X] equals its transpose. *)
Theorem cov_matrix_symmetric (k : kernel) (f : point -> point -> R)
    (X : list point) :
  evaluates k f X X ->
  (forall a b, In a X -> In b X -> f a b = f b a) ->
  exists K, cov_matrix X X k = Ok K /\ np_T K = K.
Proof.
  intros Hk Hsym. eexists. split; [apply (cov_matrix_total Hk)|].
  destruct X as [|x X'] eqn:HX; [reflexivity|]. rewrite <- HX in *.
  assert (Hne : X <> []) by (rewrite HX; discriminate).
  rewrite (np_array_cov_rows f X Hne). simpl. f_equal.
  rewrite (cov_rows_transpose f X X) at 2. f_equal.
  unfold spec_cov_rows, cov_rows.
  apply map_ext_in. intros a Ha. apply map_ext_in. intros b Hb.
  now apply Hsym.
Qed.

Lemma cov_matrix_symmetric_witness :
  exists K,
    cov_matrix [Scalar 0; Scalar 1] [Scalar 0; Scalar 1]
      (SquaredExponentialKernel_call default_kernel) = Ok K /\
    np_T K = K.
Proof.
  apply (@cov_matrix_symmetric
           (SquaredExponentialKernel_call default_kernel)
           (value_of (SquaredExponentialKernel_call default_kernel))
           [Scalar 0; Scalar 1]).
  - apply (default_kernel_evaluates [0; 1] [0; 1]).
  - intros a b _ _. unfold value_of.
    now rewrite (np_sub_swap_kernel default_kernel a b).
Defined.

(** ** Construction: singular matrices and unchecked outputs *)

Lemma GPR_init_singular (k : kernel) (f : point -> point -> R)
    (X : list point) (y : vec) (sigma : R) :
  evaluates k f X X ->
  ~ invertible (length X) (training_matrix f X sigma) ->
  GPR_init X y k sigma = Raise LinAlgError.
Proof.
  intros Hk Hn. unfold GPR_init.
  pose proof (stabilize_training sigma Hk) as HS.
  destruct (cov_matrix X X k) as [K|e]; [|discriminate HS].
  unfold bind in HS |- *. rewrite HS.
  now rewrite (np_linalg_inv_singular Hn).
Qed.

(** X6: when the kernel evaluates on the training inputs, construction
    succeeds exactly when the matrix it assembles is invertible, and
    raises [LinAlgError] exactly when it is singular. *)
Theorem init_succeeds_iff_invertible (k : kernel) (f : point -> point -> R)
    (X : list point) (y : vec) (sigma : R) :
  evaluates k f X X ->
  ((exists g, GPR_init X y k sigma = Ok g) <->
   invertible (length X) (training_matrix f X sigma)) /\
  (GPR_init X y k sigma = Raise LinAlgError <->
   ~ invertible (length X) (training_matrix f X sigma)).
Proof.
  intros Hk. split; split.
  - intros [g Hg].
    destruct (@GPR_init_inv k f X y sigma g Hk Hg) as [Ki [HKi _]].
    now exists Ki.
  - intros Hinv.
    destruct (@GPR_init_ok k f X y sigma Hk Hinv) as [Ki [_ Hg]].
    eexists. exact Hg.
  - intros Hr Hinv.
    destruct (@GPR_init_ok k f X y sigma Hk Hinv) as [Ki [_ Hg]].
    rewrite Hg in Hr. discriminate Hr.
  - now apply GPR_init_singular.
Qed.

Lemma not_invertible_zero : ~ invertible 1 [[0]].
Proof.
  intros [d [Hwf [Hr _]]]. destruct (wf_rows_1 Hwf) as [x ->].
  unfold matmul, vecmat, col, dotp, rsum, table in Hr. simpl in Hr.
  injection Hr as Hr. lra.
Qed.

Lemma init_succeeds_iff_invertible_witness :
  ((exists g,
      GPR_init [Scalar 0] [5] (SquaredExponentialKernel_call default_kernel)
               (- 1 - stabilization) = Ok g) <->
   invertible 1
     (training_matrix
        (value_of (SquaredExponentialKernel_call default_kernel))
        [Scalar 0] (- 1 - stabilization))) /\
  (GPR_init [Scalar 0] [5] (SquaredExponentialKernel_call default_kernel)
            (- 1 - stabilization) = Raise LinAlgError <->
   ~ invertible 1
       (training_matrix
          (value_of (SquaredExponentialKernel_call default_kernel))
          [Scalar 0] (- 1 - stabilization))).
Proof.
  apply (@init_succeeds_iff_invertible
           (SquaredExponentialKernel_call default_kernel)
           (value_of (SquaredExponentialKernel_call default_kernel))
           [Scalar 0] [5] (- 1 - stabilization)).
  apply (default_kernel_evaluates [0] [0]).
Defined.

(** With one training point at 0, the default kernel and noise
    [-1 - 3e-7] the matrix is the 1-by-1 zero matrix. *)
Example init_raises_LinAlgError :
  GPR_init [Scalar 0] [5] (SquaredExponentialKernel_call default_kernel)
           (- 1 - stabilization) = Raise LinAlgError.
Proof.
  apply (@GPR_init_singular _
           (value_of (SquaredExponentialKernel_call default_kernel))).
  - apply (default_kernel_evaluates [0] [0]).
  - unfold training_matrix, table. simpl.
    rewrite default_kernel_at_zero.
    replace (1 + (stabilization + (- 1 - stabilization))) with 0 by ring.
    exact not_invertible_zero.
Qed.

Lemma GPR_init_one_input (k : kernel) (x : point) (y : vec) (sigma : R) :
  (exists v, k x x = Ok v) ->
  value_of k x x + (stabilization + sigma) <> 0 ->
  GPR_init [x] y k sigma =
  Ok {| noise := sigma; data_x := [x]; data_y := y;
        covariance_function := k;
        _inverse_of_covariance_matrix_of_input :=
          Arr2 1 1 [[/ (value_of k x x + (stabilization + sigma))]];
        _memory := None |}.
Proof.
  intros Hv Ha.
  assert (Hk : evaluates k (value_of k) [x] [x]).
  { apply evaluates_value_of. intros a b [<-|[]] [<-|[]]. exact Hv. }
  destruct (@GPR_init_ok k (value_of k) [x] y sigma Hk) as [Ki [Hinv Hg]].
  - exists [[/ (value_of k x x + (stabilization + sigma))]].
    apply (is_inverse_1 Ha).
  - rewrite Hg. do 3 f_equal. apply (is_inverse_1_unique Ha Hinv).
Qed.

(** X7: the number of training outputs is not compared with the number
    of training inputs at construction; when they differ, every call of
    [predict] on which the kernel evaluates raises [ValueError]. *)
Theorem predict_rejects_output_count (k : kernel) (f : point -> point -> R)
    (X : list point) (y : vec) (sigma : R) (Q : list point) (g : GPR) :
  length y <> length X ->
  GPR_init X y k sigma = Ok g ->
  evaluates k f (X ++ Q) Q ->
  GPR_predict g Q = Raise ValueError.
Proof.
  intros Hy Hg Hk.
  destruct (@GPR_init_inv k (value_of k) X y sigma g
              (GPR_init_evaluates _ _ _ _ Hg) Hg) as [Ki [_ ->]].
  unfold GPR_predict.
  cbn [data_x data_y covariance_function
       _inverse_of_covariance_matrix_of_input].
  rewrite (@cov_matrix_total k f X Q)
    by (intros a b Ha Hb; apply Hk; [apply in_or_app; left|]; assumption).
  rewrite (@cov_matrix_total k f Q Q)
    by (intros a b Ha Hb; apply Hk; [apply in_or_app; right|]; assumption).
  cbn [bind np_T np_dot].
  destruct (Nat.eqb_spec (length y) (length X)) as [E|_]; [contradiction|].
  reflexivity.
Qed.

Lemma predict_rejects_output_count_witness :
  GPR_predict
    {| noise := 1 / 100; data_x := [Scalar 0]; data_y := [5; 6];
       covariance_function := SquaredExponentialKernel_call default_kernel;
       _inverse_of_covariance_matrix_of_input :=
         Arr2 1 1
           [[/ (value_of (SquaredExponentialKernel_call default_kernel)
                         (Scalar 0) (Scalar 0) +
                (stabilization + 1 / 100))]];
       _memory := None |}
    [Scalar 1] = Raise ValueError.
Proof.
  apply (@predict_rejects_output_count
           (SquaredExponentialKernel_call default_kernel)
           (value_of (SquaredExponentialKernel_call default_kernel))
           [Scalar 0] [5; 6] (1 / 100) [Scalar 1]).
  - simpl. lia.
  - apply GPR_init_one_input.
    + eexists. reflexivity.
    + rewrite default_kernel_at_zero. unfold stabilization. lra.
  - apply (default_kernel_evaluates [0; 1] [1]).
Defined.

(** ** Repeated calls of [predict] *)

Lemma GPR_predict_state (g : GPR) (Q : list point) (g1 : GPR) (r : ndarray) :
  GPR_predict g Q = Ok (g1, r) ->
  exists mem, g1 = set_memory g mem /\ mean mem = r.
Proof.
  unfold GPR_predict. intros H.
  repeat match type of H with
         | bind ?m _ = _ =>
             let x := fresh "x" in
             destruct m as [x|?]; [cbn [bind] in H|discriminate H]
         end.
  injection H as <- <-. eexists. split; reflexivity.
Qed.

(** X8: [predict] changes nothing of the regressor but [_memory], where
    it leaves the value it returns, and its result does not depend on
    what [_memory] held: after any successful call, every further call
    behaves as on the regressor before that call. *)
Theorem predict_self_contained (g : GPR) (Q : list point) (g1 : GPR)
    (r : ndarray) :
  GPR_predict g Q = Ok (g1, r) ->
  noise g1 = noise g /\
  data_x g1 = data_x g /\
  data_y g1 = data_y g /\
  covariance_function g1 = covariance_function g /\
  _inverse_of_covariance_matrix_of_input g1 =
    _inverse_of_covariance_matrix_of_input g /\
  (exists mem, _memory g1 = Some mem /\ mean mem = r) /\
  forall Q', GPR_predict g1 Q' = GPR_predict g Q'.
Proof.
  intros H. destruct (GPR_predict_state _ _ H) as [mem [-> Hr]].
  repeat split. exists mem. split; [reflexivity|exact Hr].
Qed.

Lemma predict_self_contained_witness :
  exists g1 r,
    GPR_predict
      (single_point_regressor (SquaredExponentialKernel_call default_kernel)
                              (Scalar 0) 5 (1 / 100))
      [Scalar 0] = Ok (g1, r) /\
    forall Q',
      GPR_predict g1 Q' =
      GPR_predict
        (single_point_regressor
           (SquaredExponentialKernel_call default_kernel)
           (Scalar 0) 5 (1 / 100)) Q'.
Proof.
  pose (k := SquaredExponentialKernel_call default_kernel).
  assert (Hk : exists v, k (Scalar 0) (Scalar 0) = Ok v)
    by (eexists; reflexivity).
  pose proof (@predict_single k (Scalar 0) 5 (1 / 100) (Scalar 0) Hk Hk) as H.
  cbv zeta in H. do 2 eexists. split; [exact H|].
  exact (proj2 (proj2 (proj2 (proj2 (proj2 (proj2
           (@predict_self_contained _ _ _ _ H))))))).
Defined.

(** ** The training outputs *)

Lemma GPR_init_outputs (k : kernel) (X : list point) (y1 y2 : vec)
    (sigma : R) (g1 : GPR) :
  GPR_init X y1 k sigma = Ok g1 ->
  exists g2,
    GPR_init X y2 k sigma = Ok g2 /\
    data_x g2 = X /\ data_y g2 = y2 /\ covariance_function g2 = k /\
    _inverse_of_covariance_matrix_of_input g2 =
      _inverse_of_covariance_matrix_of_input g1.
Proof.
  unfold GPR_init. intros H.
  destruct (cov_matrix X X k) as [K|e]; [cbn [bind] in *|discriminate H].
  destruct (np_add K _) as [S|e]; [cbn [bind] in *|discriminate H].
  destruct (np_linalg_inv S) as [Kinv|e]; [cbn [bind] in *|discriminate H].
  injection H as <-. eexists. split; [reflexivity|]. repeat split.
Qed.

Lemma dotp_cons (x y : R) (u v : vec) :
  dotp (x :: u) (y :: v) = x * y + dotp u v.
Proof. reflexivity. Qed.

Lemma dotp_lincomb (c : R) (u1 u2 w : vec) :
  length u1 = length u2 ->
  dotp (lincomb c u1 u2) w = c * dotp u1 w + dotp u2 w.
Proof.
  revert u2 w. induction u1 as [|x u1 IH]; intros [|z u2] w Hlen;
    try discriminate.
  - unfold lincomb, dotp, rsum. simpl. ring.
  - destruct w as [|t w].
    + unfold lincomb, dotp, rsum. simpl. ring.
    + change (lincomb c (x :: u1) (z :: u2))
        with ((c * x + z) :: lincomb c u1 u2).
      rewrite !dotp_cons, IH by (simpl in Hlen; lia). ring.
Qed.

Lemma lincomb_map (A : Type) (c : R) (g1 g2 : A -> R) (l : list A) :
  lincomb c (map g1 l) (map g2 l) = map (fun x => c * g1 x + g2 x) l.
Proof.
  unfold lincomb. induction l as [|x l IH]; simpl; [reflexivity|].
  now rewrite IH.
Qed.

Lemma posterior_mean_lincomb (f : point -> point -> R) (X : list point)
    (c : R) (y1 y2 : vec) (Ki : list vec) (Q : list point) :
  length y1 = length y2 ->
  posterior_mean f X (lincomb c y1 y2) Ki Q =
  lincomb c (posterior_mean f X y1 Ki Q) (posterior_mean f X y2 Ki Q).
Proof.
  intros Hlen. unfold posterior_mean.
  set (n := length X). set (T := transpose n Ki).
  assert (Hv : vecmat (lincomb c y1 y2) n T =
               lincomb c (vecmat y1 n T) (vecmat y2 n T)).
  { unfold vecmat. rewrite lincomb_map. apply map_ext. intros j.
    now apply dotp_lincomb. }
  rewrite Hv. unfold matvec. rewrite lincomb_map.
  apply map_ext. intros row.
  rewrite (dotp_comm row (lincomb _ _ _)), dotp_lincomb
    by (now rewrite !length_vecmat).
  now rewrite !(dotp_comm row).
Qed.

Lemma length_lincomb (c : R) (u v : vec) :
  length u = length v -> length (lincomb c u v) = length u.
Proof.
  intros H. unfold lincomb. rewrite length_map, length_combine. lia.
Qed.

(** X9: construction does not look at the training outputs, and the
    covariance matrix and the variance that [predict] stores do not
    depend on them: two regressors that differ only in their outputs
    store the same covariance and variance at every query. *)
Theorem uncertainty_ignores_outputs (k : kernel) (f : point -> point -> R)
    (X : list point) (y1 y2 : vec) (sigma : R) (Q : list point) (g1 : GPR) :
  Q <> [] ->
  length y1 = length X ->
  length y2 = length X ->
  evaluates k f (X ++ Q) (X ++ Q) ->
  GPR_init X y1 k sigma = Ok g1 ->
  exists g2 g1' g2' r1 r2 m1 m2,
    GPR_init X y2 k sigma = Ok g2 /\
    GPR_predict g1 Q = Ok (g1', r1) /\
    GPR_predict g2 Q = Ok (g2', r2) /\
    _memory g1' = Some m1 /\
    _memory g2' = Some m2 /\
    covariance_matrix m1 = covariance_matrix m2 /\
    variance m1 = variance m2.
Proof.
  intros HQ Hy1 Hy2 Hk Hg1.
  destruct (@GPR_init_outputs k X y1 y2 sigma g1 Hg1)
    as [g2 [Hg2 [_ [_ [_ Hinv]]]]].
  destruct (@predict_after_init k f X y1 sigma Q g1 HQ Hy1 Hk Hg1)
    as [Ki1 [_ [HKi1 Hp1]]].
  destruct (@predict_after_init k f X y2 sigma Q g2 HQ Hy2 Hk Hg2)
    as [Ki2 [_ [HKi2 Hp2]]].
  assert (HKi : Ki2 = Ki1).
  { rewrite Hinv, HKi1 in HKi2. now injection HKi2. }
  subst Ki2.
  exists g2. do 6 eexists.
  split; [exact Hg2|]. split; [exact Hp1|]. split; [exact Hp2|].
  repeat split.
Qed.

Lemma uncertainty_ignores_outputs_witness :
  exists g2 g1' g2' r1 r2 m1 m2,
    GPR_init [Scalar 0] [7] (SquaredExponentialKernel_call default_kernel)
             (1 / 100) = Ok g2 /\
    GPR_predict
      (single_point_regressor (SquaredExponentialKernel_call default_kernel)
                              (Scalar 0) 5 (1 / 100))
      [Scalar 0; Scalar 1] = Ok (g1', r1) /\
    GPR_predict g2 [Scalar 0; Scalar 1] = Ok (g2', r2) /\
    _memory g1' = Some m1 /\
    _memory g2' = Some m2 /\
    covariance_matrix m1 = covariance_matrix m2 /\
    variance m1 = variance m2.
Proof.
  apply (@uncertainty_ignores_outputs
           (SquaredExponentialKernel_call default_kernel)
           (value_of (SquaredExponentialKernel_call default_kernel))
           [Scalar 0] [5] [7] (1 / 100) [Scalar 0; Scalar 1]).
  - discriminate.
  - reflexivity.
  - reflexivity.
  - apply (default_kernel_evaluates [0; 0; 1] [0; 0; 1]).
  - apply GPR_init_example. unfold stabilization. lra.
Defined.

(** X10: the mean that [predict] returns is linear in the training
    outputs: for outputs [c * y1 + y2] it is [c] times the mean for
    [y1] plus the mean for [y2]. *)
Theorem mean_linear_in_outputs (k : kernel) (f : point -> point -> R)
    (X : list point) (c : R) (y1 y2 : vec) (sigma : R) (Q : list point)
    (g1 : GPR) :
  Q <> [] ->
  length y1 = length X ->
  length y2 = length X ->
  evaluates k f (X ++ Q) (X ++ Q) ->
  GPR_init X y1 k sigma = Ok g1 ->
  exists g2 g g1' g2' g' mu1 mu2,
    GPR_init X y2 k sigma = Ok g2 /\
    GPR_init X (lincomb c y1 y2) k sigma = Ok g /\
    GPR_predict g1 Q = Ok (g1', Arr1 mu1) /\
    GPR_predict g2 Q = Ok (g2', Arr1 mu2) /\
    GPR_predict g Q = Ok (g', Arr1 (lincomb c mu1 mu2)).
Proof.
  intros HQ Hy1 Hy2 Hk Hg1.
  destruct (@GPR_init_outputs k X y1 y2 sigma g1 Hg1)
    as [g2 [Hg2 [_ [_ [_ Hinv2]]]]].
  destruct (@GPR_init_outputs k X y1 (lincomb c y1 y2) sigma g1 Hg1)
    as [g [Hg [_ [_ [_ Hinv]]]]].
  assert (Hy : length (lincomb c y1 y2) = length X)
    by (rewrite length_lincomb; congruence).
  destruct (@predict_after_init k f X y1 sigma Q g1 HQ Hy1 Hk Hg1)
    as [Ki1 [_ [HKi1 Hp1]]].
  destruct (@predict_after_init k f X y2 sigma Q g2 HQ Hy2 Hk Hg2)
    as [Ki2 [_ [HKi2 Hp2]]].
  destruct (@predict_after_init k f X _ sigma Q g HQ Hy Hk Hg)
    as [Ki [_ [HKi Hp]]].
  assert (E2 : Ki2 = Ki1)
    by (rewrite Hinv2, HKi1 in HKi2; now injection HKi2).
  assert (E : Ki = Ki1) by (rewrite Hinv, HKi1 in HKi; now injection HKi).
  subst Ki2 Ki.
  exists g2, g. do 5 eexists.
  split; [exact Hg2|]. split; [exact Hg|]. split; [exact Hp1|].
  split; [exact Hp2|]. rewrite Hp.
  now rewrite posterior_mean_lincomb by congruence.
Qed.

Lemma mean_linear_in_outputs_witness :
  exists g2 g g1' g2' g' mu1 mu2,
    GPR_init [Scalar 0] [7] (SquaredExponentialKernel_call default_kernel)
             (1 / 100) = Ok g2 /\
    GPR_init [Scalar 0] (lincomb 2 [5] [7])
             (SquaredExponentialKernel_call default_kernel) (1 / 100)
      = Ok g /\
    GPR_predict
      (single_point_regressor (SquaredExponentialKernel_call default_kernel)
                              (Scalar 0) 5 (1 / 100))
      [Scalar 0; Scalar 1] = Ok (g1', Arr1 mu1) /\
    GPR_predict g2 [Scalar 0; Scalar 1] = Ok (g2', Arr1 mu2) /\
    GPR_predict g [Scalar 0; Scalar 1] = Ok (g', Arr1 (lincomb 2 mu1 mu2)).
Proof.
  apply (@mean_linear_in_outputs
           (SquaredExponentialKernel_call default_kernel)
           (value_of (SquaredExponentialKernel_call default_kernel))
           [Scalar 0] 2 [5] [7] (1 / 100) [Scalar 0; Scalar 1]).
  - discriminate.
  - reflexivity.
  - reflexivity.
  - apply (default_kernel_evaluates [0; 0; 1] [0; 0; 1]).
  - apply GPR_init_example. unfold stabilization. lra.
Defined.

(** ** No training data *)

Lemma map_const_repeat (A : Type) (c : R) (l : list A) :
  map (fun _ => c) l = repeat c (length l).
Proof. induction l as [|x l IH]; simpl; [reflexivity|now rewrite IH]. Qed.

Lemma dotp_nil_l (v : vec) : dotp [] v = 0.
Proof. reflexivity. Qed.

Lemma nth_zeros (A : Type) (l : list A) (j : nat) :
  nth j (map (fun _ : A => 0) l) 0 = 0.
Proof.
  revert j. induction l as [|x l IH]; intros [|j]; simpl; auto.
Qed.

Lemma nth_map_const (A B : Type) (c d : B) (l : list A) (i : nat) :
  nth i (map (fun _ => c) l) d = c \/ nth i (map (fun _ => c) l) d = d.
Proof.
  revert i. induction l as [|x l IH]; intros [|i]; simpl; auto.
Qed.

Lemma reduction_empty_nth (f : point -> point -> R) (Q : list point)
    (i j : nat) :
  nth j (nth i (reduction f [] [] Q) []) 0 = 0.
Proof.
  assert (H : reduction f [] [] Q =
              map (fun _ : point =>
                     map (fun _ : nat => 0) (seq 0 (length Q))) Q).
  { unfold reduction, matmul, cov_rows. rewrite map_map.
    apply map_ext. intros b. unfold vecmat. apply map_ext. intros c.
    reflexivity. }
  rewrite H.
  destruct (nth_map_const (map (fun _ : nat => 0) (seq 0 (length Q)))
                          [] Q i) as [-> | ->].
  - apply nth_zeros.
  - now destruct j.
Qed.

(** X11: a regressor built from no training point predicts the prior:
    the mean is zero at every query point, and the stored covariance
    matrix holds the kernel values of the query points, each increased
    by [3e-7]. *)
Theorem predict_without_training (k : kernel) (f : point -> point -> R)
    (sigma : R) (Q : list point) :
  Q <> [] ->
  evaluates k f Q Q ->
  exists g g' mem C v,
    GPR_init [] [] k sigma = Ok g /\
    GPR_predict g Q = Ok (g', Arr1 (repeat 0 (length Q))) /\
    _memory g' = Some mem /\
    covariance_matrix mem = Arr2 (length Q) (length Q) C /\
    variance mem = Arr1 v /\
    (forall i j, (i < length Q)%nat -> (j < length Q)%nat ->
       nth j (nth i C []) 0 =
       f (nth j Q (Scalar 0)) (nth i Q (Scalar 0)) + stabilization) /\
    (forall i, (i < length Q)%nat ->
       nth i v 0 =
       f (nth i Q (Scalar 0)) (nth i Q (Scalar 0)) + stabilization).
Proof.
  intros HQ Hk.
  pose (g := {| noise := sigma; data_x := []; data_y := [];
                covariance_function := k;
                _inverse_of_covariance_matrix_of_input := Arr2 0 0 [];
                _memory := None |}).
  assert (Hp := @GPR_predict_ok g f [] Q HQ Hk eq_refl eq_refl).
  cbn [data_x data_y g] in Hp.
  assert (Hmu : posterior_mean f [] [] [] Q = repeat 0 (length Q)).
  { unfold posterior_mean, matvec, cov_rows. rewrite map_map.
    apply (map_const_repeat 0 Q). }
  assert (HC : forall i j, (i < length Q)%nat -> (j < length Q)%nat ->
             nth j (nth i (posterior_cov f [] [] Q) []) 0 =
             f (nth j Q (Scalar 0)) (nth i Q (Scalar 0)) + stabilization).
  { intros i j Hi Hj. unfold posterior_cov. rewrite table_nth by assumption.
    rewrite reduction_empty_nth.
    rewrite (cov_rows_nth f Q Q (Scalar 0)) by assumption. ring. }
  exists g. do 4 eexists.
  split; [apply GPR_init_empty|].
  split; [rewrite Hp, Hmu; reflexivity|].
  split; [reflexivity|]. split; [reflexivity|]. split; [reflexivity|].
  split; [exact HC|].
  intros i Hi. rewrite diagonal_nth by exact Hi. now apply HC.
Qed.

Lemma predict_without_training_witness :
  exists g g' mem C v,
    GPR_init [] [] (SquaredExponentialKernel_call default_kernel) (1 / 100)
      = Ok g /\
    GPR_predict g [Scalar 0; Scalar 1] = Ok (g', Arr1 (repeat 0 2)) /\
    _memory g' = Some mem /\
    covariance_matrix mem = Arr2 2 2 C /\
    variance mem = Arr1 v /\
    (forall i j, (i < 2)%nat -> (j < 2)%nat ->
       nth j (nth i C []) 0 =
       value_of (SquaredExponentialKernel_call default_kernel)
                (nth j [Scalar 0; Scalar 1] (Scalar 0))
                (nth i [Scalar 0; Scalar 1] (Scalar 0)) + stabilization) /\
    (forall i, (i < 2)%nat ->
       nth i v 0 =
       value_of (SquaredExponentialKernel_call default_kernel)
                (nth i [Scalar 0; Scalar 1] (Scalar 0))
                (nth i [Scalar 0; Scalar 1] (Scalar 0)) + stabilization).
Proof.
  apply (@predict_without_training
           (SquaredExponentialKernel_call default_kernel)
           (value_of (SquaredExponentialKernel_call default_kernel))
           (1 / 100) [Scalar 0; Scalar 1]).
  - discriminate.
  - apply (default_kernel_evaluates [0; 1] [0; 1]).
Defined.

(** ** One training point *)

Lemma kernel_vectors_bounds (self : SquaredExponentialKernel) (a b : vec) :
  0 < sigma_f self -> length_ self <> 0 -> length a = length b ->
  (exists v, SquaredExponentialKernel_call self (Arr1 a) (Arr1 b) = Ok v) /\
  0 < value_of (SquaredExponentialKernel_call self) (Arr1 a) (Arr1 b)
    <= sigma_f self.
Proof.
  intros Hs Hl Hlen. unfold value_of.
  rewrite (kernel_on_vectors self a b Hlen). split; [eexists; reflexivity|].
  pose proof (exp_le_1 (exponent_nonpos Hl (sqdist_nonneg a b))) as [H0 H1].
  split; [apply Rmult_lt_0_compat; assumption|nra].
Qed.

(** X12: one training vector, a kernel with positive signal variance
    and nonzero lengthscale, a non-negative noise.  At every query
    vector of the same length the stored variance lies strictly above
    [3e-7] and at most at [sigma_f + 3e-7], and the returned mean is no
    larger in absolute value than the training output. *)
Theorem single_point_posterior (self : SquaredExponentialKernel)
    (a b : vec) (y0 sigma : R) :
  0 < sigma_f self ->
  length_ self <> 0 ->
  0 <= sigma ->
  length a = length b ->
  exists g g' mu v mem,
    GPR_init [Arr1 a] [y0] (SquaredExponentialKernel_call self) sigma
      = Ok g /\
    GPR_predict g [Arr1 b] = Ok (g', Arr1 [mu]) /\
    _memory g' = Some mem /\
    variance mem = Arr1 [v] /\
    stabilization < v <= sigma_f self + stabilization /\
    Rabs mu <= Rabs y0.
Proof.
  intros Hs Hl Hsig Hlen.
  set (k := SquaredExponentialKernel_call self).
  assert (Hstab : 0 < stabilization) by (unfold stabilization; lra).
  assert (Hd : sigma_f self + (stabilization + sigma) <> 0) by lra.
  destruct (kernel_vectors_bounds self a b Hs Hl Hlen) as [Hab [Hw0 Hw1]].
  assert (Hbb : exists v, k (Arr1 b) (Arr1 b) = Ok v)
    by (eexists; apply kernel_same_vector).
  assert (Haa : value_of k (Arr1 a) (Arr1 a) = sigma_f self)
    by (unfold value_of, k; now rewrite kernel_same_vector).
  assert (Hqq : value_of k (Arr1 b) (Arr1 b) = sigma_f self)
    by (unfold value_of, k; now rewrite kernel_same_vector).
  pose proof (@predict_single k (Arr1 a) y0 sigma (Arr1 b) Hab Hbb) as Hp.
  cbv zeta in Hp. rewrite Haa, Hqq in Hp. fold k in Hw0, Hw1.
  set (w := value_of k (Arr1 a) (Arr1 b)) in *.
  set (s := sigma_f self) in *.
  pose proof (Rinv_r _ Hd) as Hc.
  assert (Hc0 : 0 < / (s + (stabilization + sigma)))
    by (apply Rinv_0_lt_compat; lra).
  set (c := / (s + (stabilization + sigma))) in *.
  assert (Hsc : s * c < 1) by nra.
  assert (Hwc : 0 <= w * c <= s * c) by nra.
  do 5 eexists.
  split; [apply (GPR_init_vector self a y0 Hd)|].
  split; [exact Hp|].
  split; [reflexivity|]. split; [reflexivity|]. split; [split|].
  - assert (w * (c * w) < s) by nra. lra.
  - assert (0 <= w * (c * w)) by nra. lra.
  - replace (w * (c * y0)) with ((w * c) * y0) by ring.
    rewrite Rabs_mult, (Rabs_pos_eq (w * c)) by lra.
    pose proof (Rabs_pos y0). nra.
Qed.

Lemma single_point_posterior_witness :
  exists g g' mu v mem,
    GPR_init [Arr1 [0; 0]] [5] (SquaredExponentialKernel_call default_kernel)
             (1 / 100) = Ok g /\
    GPR_predict g [Arr1 [1; 2]] = Ok (g', Arr1 [mu]) /\
    _memory g' = Some mem /\
    variance mem = Arr1 [v] /\
    stabilization < v <= sigma_f default_kernel + stabilization /\
    Rabs mu <= Rabs 5.
Proof.
  apply (@single_point_posterior default_kernel [0; 0] [1; 2] 5 (1 / 100));
    simpl; try lra.
  reflexivity.
Defined.

(** ** Prediction point by point *)

Lemma nth_matvec (d : list vec) (w : vec) (j : nat) :
  (j < length d)%nat -> nth j (matvec d w) 0 = dotp (nth j d []) w.
Proof.
  intros Hj. unfold matvec.
  rewrite (nth_indep _ 0 (dotp [] w)) by (rewrite length_map; exact Hj).
  exact (map_nth (fun row => dotp row w) d [] j).
Qed.

Lemma nth_vecmat (u : vec) (c : nat) (d : list vec) (j : nat) :
  (j < c)%nat -> nth j (vecmat u c d) 0 = dotp u (col j d).
Proof.
  intros Hj. unfold vecmat.
  rewrite (nth_indep _ 0 (dotp u (col 0 d)))
    by (rewrite length_map, length_seq; exact Hj).
  rewrite (map_nth (fun j => dotp u (col j d)) (seq 0 c) 0%nat j).
  now rewrite seq_nth by exact Hj.
Qed.

Lemma nth_matmul (d : list vec) (c : nat) (d' : list vec) (i : nat) :
  (i < length d)%nat -> nth i (matmul d c d') [] = vecmat (nth i d []) c d'.
Proof.
  intros Hi. unfold matmul.
  rewrite (nth_indep _ [] (vecmat [] c d')) by (rewrite length_map; exact Hi).
  exact (map_nth (fun row => vecmat row c d') d [] i).
Qed.

Lemma col_matmul (d : list vec) (c : nat) (d' : list vec) (j : nat) :
  (j < c)%nat -> col j (matmul d c d') = matvec d (col j d').
Proof.
  intros Hj. unfold col at 1, matmul, matvec. rewrite map_map.
  apply map_ext. intros row. now apply nth_vecmat.
Qed.

Lemma cov_rows_row (f : point -> point -> R) (X Q : list point) (j : nat) :
  (j < length Q)%nat ->
  nth j (cov_rows f X Q) [] = kernel_column f X (nth j Q (Scalar 0)).
Proof.
  intros Hj. unfold cov_rows, kernel_column.
  rewrite (nth_indep _ [] (map (fun a => f a (Scalar 0)) X))
    by (rewrite length_map; exact Hj).
  exact (map_nth (fun b => map (fun a => f a b) X) Q (Scalar 0) j).
Qed.

Lemma reduction_nth (f : point -> point -> R) (X : list point)
    (Ki : list vec) (Q : list point) (i j : nat) :
  (i < length Q)%nat -> (j < length Q)%nat ->
  nth j (nth i (reduction f X Ki Q) []) 0 =
  dotp (kernel_column f X (nth i Q (Scalar 0)))
       (matvec Ki (kernel_column f X (nth j Q (Scalar 0)))).
Proof.
  intros Hi Hj. unfold reduction.
  rewrite nth_matmul by (unfold cov_rows; rewrite length_map; exact Hi).
  rewrite nth_vecmat by exact Hj.
  rewrite col_matmul by exact Hj.
  rewrite (@col_transpose (length Q) (length X) (cov_rows f X Q) j
             (cov_rows_wf f X Q) Hj).
  now rewrite !cov_rows_row by assumption.
Qed.

Lemma posterior_mean_nth (f : point -> point -> R) (X : list point)
    (y : vec) (Ki : list vec) (Q : list point) (j : nat) :
  wf_rows (length X) (length X) Ki ->
  (j < length Q)%nat ->
  nth j (posterior_mean f X y Ki Q) 0 =
  dotp (kernel_column f X (nth j Q (Scalar 0))) (matvec Ki y).
Proof.
  intros Hwf Hj. unfold posterior_mean.
  rewrite nth_matvec by (unfold cov_rows; rewrite length_map; exact Hj).
  now rewrite cov_rows_row, (vecmat_transpose y Hwf) by exact Hj.
Qed.

Lemma posterior_variance_nth (f : point -> point -> R) (X : list point)
    (Ki : list vec) (Q : list point) (j : nat) :
  (j < length Q)%nat ->
  nth j (diagonal (length Q) (posterior_cov f X Ki Q)) 0 =
  f (nth j Q (Scalar 0)) (nth j Q (Scalar 0)) -
  dotp (kernel_column f X (nth j Q (Scalar 0)))
       (matvec Ki (kernel_column f X (nth j Q (Scalar 0)))) +
  stabilization.
Proof.
  intros Hj. rewrite diagonal_nth by exact Hj.
  unfold posterior_cov. rewrite table_nth by exact Hj.
  rewrite (cov_rows_nth f Q Q (Scalar 0)) by exact Hj.
  now rewrite reduction_nth by exact Hj.
Qed.

(** X13: point by point, [predict] computes the textbook posterior.
    With [ks] the vector of kernel values between the training inputs
    and the query point [q] and [Ki] the stored inverse, the mean at [q]
    is [ks . (Ki y)] and the variance is
    [k (q, q) - ks . (Ki ks) + 3e-7]. *)
Theorem predict_pointwise_formula (k : kernel) (f : point -> point -> R)
    (X : list point) (y : vec) (sigma : R) (Q : list point) (g : GPR) :
  Q <> [] ->
  length y = length X ->
  evaluates k f (X ++ Q) (X ++ Q) ->
  GPR_init X y k sigma = Ok g ->
  exists Ki g' mu v mem,
    _inverse_of_covariance_matrix_of_input g =
      Arr2 (length X) (length X) Ki /\
    GPR_predict g Q = Ok (g', Arr1 mu) /\
    _memory g' = Some mem /\
    variance mem = Arr1 v /\
    forall j, (j < length Q)%nat ->
      nth j mu 0 =
        dotp (kernel_column f X (nth j Q (Scalar 0))) (matvec Ki y) /\
      nth j v 0 =
        f (nth j Q (Scalar 0)) (nth j Q (Scalar 0)) -
        dotp (kernel_column f X (nth j Q (Scalar 0)))
             (matvec Ki (kernel_column f X (nth j Q (Scalar 0)))) +
        stabilization.
Proof.
  intros HQ Hy Hk Hg.
  destruct (@predict_after_init k f X y sigma Q g HQ Hy Hk Hg)
    as [Ki [[Hwf _] [HKi Hp]]].
  exists Ki. do 4 eexists.
  split; [exact HKi|]. split; [exact Hp|].
  split; [reflexivity|]. split; [reflexivity|].
  intros j Hj. split.
  - now apply posterior_mean_nth.
  - now apply posterior_variance_nth.
Qed.

Lemma predict_pointwise_formula_witness :
  exists Ki g' mu v mem,
    _inverse_of_covariance_matrix_of_input
      (single_point_regressor (SquaredExponentialKernel_call default_kernel)
                              (Scalar 0) 5 (1 / 100)) = Arr2 1 1 Ki /\
    GPR_predict
      (single_point_regressor (SquaredExponentialKernel_call default_kernel)
                              (Scalar 0) 5 (1 / 100))
      [Scalar 0; Scalar 1] = Ok (g', Arr1 mu) /\
    _memory g' = Some mem /\
    variance mem = Arr1 v /\
    forall j, (j < 2)%nat ->
      nth j mu 0 =
        dotp (kernel_column
                (value_of (SquaredExponentialKernel_call default_kernel))
                [Scalar 0] (nth j [Scalar 0; Scalar 1] (Scalar 0)))
             (matvec Ki [5]) /\
      nth j v 0 =
        value_of (SquaredExponentialKernel_call default_kernel)
                 (nth j [Scalar 0; Scalar 1] (Scalar 0))
                 (nth j [Scalar 0; Scalar 1] (Scalar 0)) -
        dotp (kernel_column
                (value_of (SquaredExponentialKernel_call default_kernel))
                [Scalar 0] (nth j [Scalar 0; Scalar 1] (Scalar 0)))
             (matvec Ki
                (kernel_column
                   (value_of (SquaredExponentialKernel_call default_kernel))
                   [Scalar 0] (nth j [Scalar 0; Scalar 1] (Scalar 0)))) +
        stabilization.
Proof.
  apply (@predict_pointwise_formula
           (SquaredExponentialKernel_call default_kernel)
           (value_of (SquaredExponentialKernel_call default_kernel))
           [Scalar 0] [5] (1 / 100) [Scalar 0; Scalar 1]).
  - discriminate.
  - reflexivity.
  - apply (default_kernel_evaluates [0; 0; 1] [0; 0; 1]).
  - apply GPR_init_example. unfold stabilization. lra.
Defined.

(** X14: the mean and the variance at a query point do not depend on the
    other points of the query: entry [j] of the results for [Q] is the
    result of [predict] called on the single point [Q[j]]. *)
Theorem predict_batch_consistent (k : kernel) (f : point -> point -> R)
    (X : list point) (y : vec) (sigma : R) (Q : list point) (g : GPR)
    (j : nat) :
  (j < length Q)%nat ->
  length y = length X ->
  evaluates k f (X ++ Q) (X ++ Q) ->
  GPR_init X y k sigma = Ok g ->
  exists g' mu v mem g1' mu1 v1 mem1,
    GPR_predict g Q = Ok (g', Arr1 mu) /\
    _memory g' = Some mem /\
    variance mem = Arr1 v /\
    GPR_predict g [nth j Q (Scalar 0)] = Ok (g1', Arr1 [mu1]) /\
    _memory g1' = Some mem1 /\
    variance mem1 = Arr1 [v1] /\
    nth j mu 0 = mu1 /\
    nth j v 0 = v1.
Proof.
  intros Hj Hy Hk Hg.
  assert (HQ : Q <> []) by (destruct Q; [simpl in Hj; lia|discriminate]).
  assert (Hk1 : evaluates k f (X ++ [nth j Q (Scalar 0)])
                          (X ++ [nth j Q (Scalar 0)])).
  { assert (Hsub : forall a, In a (X ++ [nth j Q (Scalar 0)]) ->
                             In a (X ++ Q)).
    { intros a Ha. apply in_app_or in Ha. apply in_or_app.
      destruct Ha as [Ha|[<-|[]]]; [left; exact Ha|right].
      now apply nth_In. }
    intros a b Ha Hb. apply Hk; apply Hsub; assumption. }
  destruct (@predict_after_init k f X y sigma Q g HQ Hy Hk Hg)
    as [Ki [[Hwf _] [HKi Hp]]].
  destruct (@predict_after_init k f X y sigma [nth j Q (Scalar 0)] g
              ltac:(discriminate) Hy Hk1 Hg) as [Ki1 [_ [HKi1 Hp1]]].
  assert (E : Ki1 = Ki) by (rewrite HKi in HKi1; now injection HKi1).
  subst Ki1.
  assert (Hm1 : posterior_mean f X y Ki [nth j Q (Scalar 0)] =
                [nth j (posterior_mean f X y Ki Q) 0]).
  { rewrite (@posterior_mean_nth f X y Ki Q j Hwf Hj).
    unfold posterior_mean. cbn [cov_rows map matvec].
    now rewrite (@vecmat_transpose (length X) Ki y Hwf). }
  assert (Hv1 : diagonal 1 (posterior_cov f X Ki [nth j Q (Scalar 0)]) =
                [nth j (diagonal (length Q) (posterior_cov f X Ki Q)) 0]).
  { change (diagonal 1 (posterior_cov f X Ki [nth j Q (Scalar 0)]))
      with [nth 0 (diagonal (length [nth j Q (Scalar 0)])
                     (posterior_cov f X Ki [nth j Q (Scalar 0)])) 0].
    rewrite (@posterior_variance_nth f X Ki [nth j Q (Scalar 0)] 0)
      by (simpl; lia).
    now rewrite (@posterior_variance_nth f X Ki Q j Hj). }
  do 8 eexists.
  split; [exact Hp|]. split; [reflexivity|]. split; [reflexivity|].
  split; [rewrite Hp1; simpl length; rewrite Hm1, Hv1; reflexivity|].
  split; [reflexivity|]. split; [reflexivity|]. split; reflexivity.
Qed.

Lemma predict_batch_consistent_witness :
  exists g' mu v mem g1' mu1 v1 mem1,
    GPR_predict
      (single_point_regressor (SquaredExponentialKernel_call default_kernel)
                              (Scalar 0) 5 (1 / 100))
      [Scalar 0; Scalar 1] = Ok (g', Arr1 mu) /\
    _memory g' = Some mem /\
    variance mem = Arr1 v /\
    GPR_predict
      (single_point_regressor (SquaredExponentialKernel_call default_kernel)
                              (Scalar 0) 5 (1 / 100))
      [nth 1 [Scalar 0; Scalar 1] (Scalar 0)] = Ok (g1', Arr1 [mu1]) /\
    _memory g1' = Some mem1 /\
    variance mem1 = Arr1 [v1] /\
    nth 1 mu 0 = mu1 /\
    nth 1 v 0 = v1.
Proof.
  apply (@predict_batch_consistent
           (SquaredExponentialKernel_call default_kernel)
           (value_of (SquaredExponentialKernel_call default_kernel))
           [Scalar 0] [5] (1 / 100) [Scalar 0; Scalar 1]).
  - simpl. lia.
  - reflexivity.
  - apply (default_kernel_evaluates [0; 0; 1] [0; 0; 1]).
  - apply GPR_init_example. unfold stabilization. lra.
Defined.

(** ** Finite sums and entries of products *)

Lemma rsum_app (u v : vec) : rsum (u ++ v) = rsum u + rsum v.
Proof.
  unfold rsum. induction u as [|x u IH]; simpl; [ring|]. rewrite IH. ring.
Qed.

Lemma bigsum_S (n : nat) (F : nat -> R) :
  bigsum (S n) F = bigsum n F + F n.
Proof.
  unfold bigsum. rewrite seq_S, map_app, rsum_app. f_equal.
  unfold rsum. simpl. ring.
Qed.

Lemma bigsum_shift (n : nat) (F : nat -> R) :
  bigsum (S n) F = F 0%nat + bigsum n (fun k => F (S k)).
Proof.
  unfold bigsum. simpl seq. rewrite <- seq_shift, !map_cons, map_map.
  reflexivity.
Qed.

Lemma bigsum_ext (n : nat) (F G : nat -> R) :
  (forall k, (k < n)%nat -> F k = G k) -> bigsum n F = bigsum n G.
Proof.
  intros H. unfold bigsum. f_equal. apply map_ext_in.
  intros k Hk. apply in_seq in Hk. apply H. lia.
Qed.

Lemma bigsum_0 (n : nat) : bigsum n (fun _ => 0) = 0.
Proof.
  induction n as [|n IH]; [reflexivity|]. rewrite bigsum_S, IH. ring.
Qed.

Lemma bigsum_plus (n : nat) (F G : nat -> R) :
  bigsum n (fun k => F k + G k) = bigsum n F + bigsum n G.
Proof.
  induction n as [|n IH]; [unfold bigsum, rsum; simpl; ring|].
  rewrite !bigsum_S, IH. ring.
Qed.

Lemma bigsum_scal_l (n : nat) (c : R) (F : nat -> R) :
  bigsum n (fun k => c * F k) = c * bigsum n F.
Proof.
  induction n as [|n IH]; [unfold bigsum, rsum; simpl; ring|].
  rewrite !bigsum_S, IH. ring.
Qed.

Lemma bigsum_scal_r (n : nat) (c : R) (F : nat -> R) :
  bigsum n (fun k => F k * c) = bigsum n F * c.
Proof.
  induction n as [|n IH]; [unfold bigsum, rsum; simpl; ring|].
  rewrite !bigsum_S, IH. ring.
Qed.

Lemma bigsum_swap (n m : nat) (F : nat -> nat -> R) :
  bigsum n (fun a => bigsum m (fun b => F a b)) =
  bigsum m (fun b => bigsum n (fun a => F a b)).
Proof.
  induction n as [|n IH].
  - change (bigsum 0 (fun a => bigsum m (fun b => F a b))) with 0.
    symmetry. apply bigsum_0.
  - rewrite bigsum_S, IH, <- bigsum_plus.
    apply bigsum_ext. intros b _. now rewrite bigsum_S.
Qed.

Lemma bigsum_delta_l (n i : nat) (F : nat -> R) :
  (i < n)%nat ->
  bigsum n (fun k => (if Nat.eqb i k then 1 else 0) * F k) = F i.
Proof.
  induction n as [|n IH]; intros Hi; [lia|].
  rewrite bigsum_S. destruct (Nat.eqb_spec i n) as [->|Hne].
  - rewrite (@bigsum_ext n _ (fun _ => 0)), bigsum_0; [ring|].
    intros k Hk. destruct (Nat.eqb_spec n k); [lia|ring].
  - rewrite IH by lia. ring.
Qed.

Lemma bigsum_delta_r (n j : nat) (F : nat -> R) :
  (j < n)%nat ->
  bigsum n (fun k => F k * (if Nat.eqb j k then 1 else 0)) = F j.
Proof.
  intros Hj. rewrite <- (@bigsum_delta_l n j F Hj).
  apply bigsum_ext. intros k _. ring.
Qed.

Lemma dotp_bigsum (n : nat) (u v : vec) :
  length u = n -> length v = n ->
  dotp u v = bigsum n (fun k => nth k u 0 * nth k v 0).
Proof.
  revert u v. induction n as [|n IH]; intros u v Hu Hv.
  - apply length_zero_iff_nil in Hu. now subst u.
  - destruct u as [|x u]; [discriminate|]. destruct v as [|z v];
      [discriminate|].
    rewrite dotp_cons, bigsum_shift. simpl nth.
    rewrite (IH u v) by (simpl in *; lia). reflexivity.
Qed.

Lemma wf_rows_row (r c : nat) (d : list vec) (i : nat) :
  wf_rows r c d -> (i < r)%nat -> length (nth i d []) = c.
Proof.
  intros [Hlen Hrows] Hi. rewrite Forall_forall in Hrows.
  apply Hrows, nth_In. lia.
Qed.

Lemma length_col (j : nat) (d : list vec) : length (col j d) = length d.
Proof. unfold col. apply length_map. Qed.

Lemma entry_matmul (r n c : nat) (A B : list vec) (i j : nat) :
  wf_rows r n A -> wf_rows n c B -> (i < r)%nat -> (j < c)%nat ->
  entry (matmul A c B) i j = bigsum n (fun k => entry A i k * entry B k j).
Proof.
  intros HA HB Hi Hj. unfold entry.
  rewrite nth_matmul by (destruct HA; lia).
  rewrite nth_vecmat by exact Hj.
  rewrite (@dotp_bigsum n)
    by (try apply (@wf_rows_row r n A i HA Hi); rewrite length_col; now destruct HB).
  apply bigsum_ext. intros k Hk. f_equal.
  apply col_nth. destruct HB. lia.
Qed.

Lemma entry_identity (n i j : nat) :
  (i < n)%nat -> (j < n)%nat ->
  entry (table n n (fun i j => if Nat.eqb i j then 1 else 0)) i j =
  if Nat.eqb i j then 1 else 0.
Proof. intros Hi Hj. unfold entry. now apply table_nth. Qed.

(** The inverse of a symmetric matrix is symmetric. *)
Lemma inverse_symmetric (n : nat) (S B : list vec) :
  wf_rows n n S ->
  (forall i j, (i < n)%nat -> (j < n)%nat -> entry S i j = entry S j i) ->
  is_inverse n S B ->
  forall i j, (i < n)%nat -> (j < n)%nat -> entry B i j = entry B j i.
Proof.
  intros HS Hsym [HB [HSB HBS]] i j Hi Hj.
  assert (H1 : forall p q, (p < n)%nat -> (q < n)%nat ->
             bigsum n (fun k => entry B p k * entry S k q) =
             if Nat.eqb p q then 1 else 0).
  { intros p q Hp Hq. rewrite <- (@entry_matmul n n n B S p q HB HS Hp Hq), HBS.
    now apply entry_identity. }
  assert (H3 : forall b, (b < n)%nat ->
             bigsum n (fun a => entry S b a * entry B j a) =
             if Nat.eqb j b then 1 else 0).
  { intros b Hb. rewrite <- (H1 j b Hj Hb).
    apply bigsum_ext. intros a Ha. rewrite (Hsym b a Hb Ha). ring. }
  symmetry.
  rewrite <- (@bigsum_delta_l n i (fun a => entry B j a) Hi).
  rewrite (@bigsum_ext n _
             (fun a => bigsum n (fun b =>
                entry B i b * (entry S b a * entry B j a)))).
  - rewrite bigsum_swap.
    rewrite (@bigsum_ext n _
               (fun b => entry B i b * (if Nat.eqb j b then 1 else 0))).
    + now apply bigsum_delta_r.
    + intros b Hb. rewrite bigsum_scal_l. now rewrite H3.
  - intros a Ha. rewrite <- (H1 i a Hi Ha), <- bigsum_scal_r.
    apply bigsum_ext. intros b _. ring.
Qed.

Lemma length_matvec (d : list vec) (w : vec) :
  length (matvec d w) = length d.
Proof. unfold matvec. apply length_map. Qed.

(** A symmetric matrix defines a symmetric bilinear form. *)
Lemma bilinear_symmetric (n : nat) (B : list vec) (u v : vec) :
  wf_rows n n B ->
  (forall i j, (i < n)%nat -> (j < n)%nat -> entry B i j = entry B j i) ->
  length u = n -> length v = n ->
  dotp u (matvec B v) = dotp v (matvec B u).
Proof.
  intros HB Hsym Hu Hv.
  assert (Hform : forall s t, length s = n -> length t = n ->
            dotp s (matvec B t) =
            bigsum n (fun a => bigsum n (fun b =>
              nth a s 0 * entry B a b * nth b t 0))).
  { intros s t Hs Ht.
    rewrite (@dotp_bigsum n)
      by (try exact Hs; rewrite length_matvec; now destruct HB).
    apply bigsum_ext. intros a Ha.
    rewrite nth_matvec by (destruct HB; lia).
    rewrite (@dotp_bigsum n _ t (@wf_rows_row n n B a HB Ha) Ht).
    rewrite <- bigsum_scal_l. apply bigsum_ext. intros b _.
    unfold entry. ring. }
  rewrite (Hform u v Hu Hv), (Hform v u Hv Hu), bigsum_swap.
  apply bigsum_ext. intros a Ha. apply bigsum_ext. intros b Hb.
  rewrite (Hsym b a Hb Ha). ring.
Qed.

Lemma transpose_table (r c : nat) (F : nat -> nat -> R) :
  transpose c (table r c F) = table c r (fun i j => F j i).
Proof.
  unfold transpose, table at 2. apply map_ext_in. intros j Hj.
  apply in_seq in Hj. unfold col, table. rewrite map_map.
  apply map_ext. intros i.
  rewrite (nth_indep _ 0 (F i 0%nat))
    by (rewrite length_map, length_seq; lia).
  rewrite (map_nth (fun j => F i j) (seq 0 c) 0%nat j).
  now rewrite seq_nth by lia.
Qed.

(** ** Symmetry of the stored covariance *)

(** X15: for a kernel that is symmetric on the points involved, the
    covariance matrix that [predict] stores equals its transpose. *)
Theorem covariance_symmetric (k : kernel) (f : point -> point -> R)
    (X : list point) (y : vec) (sigma : R) (Q : list point) (g : GPR) :
  Q <> [] ->
  length y = length X ->
  evaluates k f (X ++ Q) (X ++ Q) ->
  (forall a b, In a (X ++ Q) -> In b (X ++ Q) -> f a b = f b a) ->
  GPR_init X y k sigma = Ok g ->
  exists g' r mem,
    GPR_predict g Q = Ok (g', r) /\
    _memory g' = Some mem /\
    np_T (covariance_matrix mem) = covariance_matrix mem.
Proof.
  intros HQ Hy Hk Hsym Hg.
  destruct (@predict_after_init k f X y sigma Q g HQ Hy Hk Hg)
    as [Ki [Hinv [_ Hp]]].
  do 3 eexists. split; [exact Hp|]. split; [reflexivity|].
  cbn [covariance_matrix np_T]. f_equal.
  assert (HKi : forall i j, (i < length X)%nat -> (j < length X)%nat ->
              entry Ki i j = entry Ki j i).
  { apply (@inverse_symmetric (length X) (training_matrix f X sigma) Ki);
      [apply table_wf| |exact Hinv].
    intros i j Hi Hj. unfold entry, training_matrix.
    rewrite !table_nth by assumption.
    rewrite (Hsym (nth j X (Scalar 0)) (nth i X (Scalar 0)))
      by (apply in_or_app; left; now apply nth_In).
    rewrite (Nat.eqb_sym j i). reflexivity. }
  unfold posterior_cov. rewrite transpose_table.
  apply table_ext. intros i j Hi Hj.
  rewrite !(cov_rows_nth f Q Q (Scalar 0)) by assumption.
  rewrite !reduction_nth by assumption.
  rewrite (Hsym (nth i Q (Scalar 0)) (nth j Q (Scalar 0)))
    by (apply in_or_app; right; now apply nth_In).
  rewrite (@bilinear_symmetric (length X) Ki
             (kernel_column f X (nth j Q (Scalar 0)))
             (kernel_column f X (nth i Q (Scalar 0))));
    try reflexivity; try (unfold kernel_column; apply length_map);
    [apply Hinv|exact HKi].
Qed.

Lemma covariance_symmetric_witness :
  exists g' r mem,
    GPR_predict
      (single_point_regressor (SquaredExponentialKernel_call default_kernel)
                              (Scalar 0) 5 (1 / 100))
      [Scalar 0; Scalar 1] = Ok (g', r) /\
    _memory g' = Some mem /\
    np_T (covariance_matrix mem) = covariance_matrix mem.
Proof.
  apply (@covariance_symmetric
           (SquaredExponentialKernel_call default_kernel)
           (value_of (SquaredExponentialKernel_call default_kernel))
           [Scalar 0] [5] (1 / 100) [Scalar 0; Scalar 1]).
  - discriminate.
  - reflexivity.
  - apply (default_kernel_evaluates [0; 0; 1] [0; 0; 1]).
  - intros a b _ _. unfold value_of.
    now rewrite (np_sub_swap_kernel default_kernel a b).
  - apply GPR_init_example. unfold stabilization. lra.
Defined.

(** * The plotting helpers *)

(** ** Indexing and assignment *)

Lemma index_ok (A : Type) (l : list A) (i : nat) (d : A) :
  (i < length l)%nat -> index l i = Ok (nth i l d).
Proof.
  intros Hi. unfold index. now rewrite (nth_error_nth' l d Hi).
Qed.

Lemma index_raise (A : Type) (l : list A) (i : nat) :
  (length l <= i)%nat -> index l i = Raise IndexError.
Proof.
  intros Hi. unfold index.
  now rewrite (proj2 (nth_error_None l i) Hi).
Qed.

Lemma nth_assigned (A : Type) (l : list A) (i j : nat) (v d : A) :
  (i < length l)%nat ->
  nth j (firstn i l ++ v :: skipn (S i) l) d =
  if Nat.eqb j i then v else nth j l d.
Proof.
  revert i j. induction l as [|a l IH]; intros i j Hi; [simpl in Hi; lia|].
  destruct i as [|i]; destruct j as [|j]; simpl; try reflexivity.
  apply IH. simpl in Hi. lia.
Qed.

Lemma nth_error_assigned (A : Type) (l : list A) (i j : nat) (v : A) :
  (i < length l)%nat ->
  nth_error (firstn i l ++ v :: skipn (S i) l) j =
  if Nat.eqb j i then Some v else nth_error l j.
Proof.
  revert i j. induction l as [|a l IH]; intros i j Hi; [simpl in Hi; lia|].
  destruct i as [|i]; destruct j as [|j]; simpl; try reflexivity.
  apply IH. simpl in Hi. lia.
Qed.

Lemma length_assigned (A : Type) (l : list A) (i : nat) (v : A) :
  (i < length l)%nat ->
  length (firstn i l ++ v :: skipn (S i) l) = length l.
Proof.
  revert i. induction l as [|a l IH]; intros i Hi; [simpl in Hi; lia|].
  destruct i as [|i]; simpl; [reflexivity|].
  f_equal. apply IH. simpl in Hi. lia.
Qed.

Lemma list_assign_ok (A : Type) (l : list A) (i : nat) (v : A) :
  (i < length l)%nat ->
  list_assign l i v = Ok (firstn i l ++ v :: skipn (S i) l).
Proof.
  intros Hi. unfold list_assign.
  now rewrite (proj2 (Nat.ltb_lt i (length l)) Hi).
Qed.

Lemma list_assign_raise (A : Type) (l : list A) (i : nat) (v : A)
    (e : exn) :
  list_assign l i v = Raise e -> e = IndexError.
Proof.
  unfold list_assign. destruct (Nat.ltb i (length l)); [discriminate|].
  congruence.
Qed.

Lemma index_raise_inv (A : Type) (l : list A) (i : nat) (e : exn) :
  index l i = Raise e -> e = IndexError.
Proof.
  unfold index. destruct (nth_error l i); [discriminate|]. congruence.
Qed.

Lemma set_trace_visible_ok (d : list go.Scatter) (i : nat) (t : go.Scatter) :
  nth_error d i = Some t ->
  set_trace_visible d i =
  Ok (firstn i d ++ with_visible t true :: skipn (S i) d).
Proof.
  intros Ht. unfold set_trace_visible, index. now rewrite Ht.
Qed.

Lemma set_trace_visible_raise (d : list go.Scatter) (i : nat) :
  (length d <= i)%nat -> set_trace_visible d i = Raise IndexError.
Proof.
  intros Hi. unfold set_trace_visible. now rewrite (index_raise d Hi).
Qed.

Lemma nth_error_in_range (A : Type) (l : list A) (i : nat) :
  (i < length l)%nat -> exists a, nth_error l i = Some a.
Proof.
  intros Hi. destruct (nth_error l i) as [a|] eqn:H; [now exists a|].
  apply nth_error_None in H. lia.
Qed.

Lemma mapM_seq_total (B : Type) (f : nat -> result B) (F : nat -> B)
    (n : nat) :
  (forall i, (i < n)%nat -> f i = Ok (F i)) ->
  mapM f (seq 0 n) = Ok (map F (seq 0 n)).
Proof.
  intros H. apply mapM_total. intros i Hi. apply in_seq in Hi.
  apply H. lia.
Qed.

Lemma nth_error_map_seq (B : Type) (F : nat -> B) (n i : nat) :
  (i < n)%nat -> nth_error (map F (seq 0 n)) i = Some (F i).
Proof.
  intros Hi. rewrite nth_error_map, nth_error_seq.
  now rewrite (proj2 (Nat.ltb_lt i n) Hi).
Qed.

(** ** [add_slider_to_function] *)

(** X16: [add_slider_to_function] raises [IndexError] when the figure
    has no trace or fewer parameters than traces.  Otherwise it makes
    the first trace visible, leaves the other traces as they are, and
    installs one slider with one step per trace; step [i] is labelled
    with parameter [i] and shows trace [i] and no other. *)
Theorem add_slider_to_function_steps (format_2f : R -> String.string)
    (figure : go.Figure) (parameters : vec) :
  let n := length (go.data figure) in
  (n = 0%nat \/ (length parameters < n)%nat ->
   add_slider_to_function format_2f figure parameters = Raise IndexError) /\
  ((0 < n)%nat -> (n <= length parameters)%nat ->
   exists d steps,
     add_slider_to_function format_2f figure parameters =
       Ok {| go.data := d;
             go.sliders := [{| go.active := 0; go.pad_t := 50;
                               go.steps := steps |}] |} /\
     length d = n /\
     (forall j t, nth_error (go.data figure) j = Some t ->
        nth_error d j =
        Some (if Nat.eqb j 0 then with_visible t true else t)) /\
     length steps = n /\
     forall i, (i < n)%nat ->
       exists st,
         nth_error steps i = Some st /\
         go.method st = "update"%string /\
         go.label st = format_2f (nth i parameters 0) /\
         length (go.args_visible st) = n /\
         forall j, nth j (go.args_visible st) false = Nat.eqb j i).
Proof.
  intros n. unfold add_slider_to_function. split.
  - intros [Hn|Hp].
    + rewrite set_trace_visible_raise by (fold n; lia). reflexivity.
    + destruct (go.data figure) as [|t ts] eqn:Hd; [reflexivity|].
      rewrite (@set_trace_visible_ok (t :: ts) 0 t eq_refl). cbn [bind].
      rewrite length_assigned by (simpl; lia).
      rewrite (@mapM_raise _ _ _ IndexError); [reflexivity| |].
      * intros i e _ He.
        destruct (index parameters i) as [p|e1] eqn:Hi; cbn [bind] in He;
          [|injection He as <-; now apply index_raise_inv in Hi].
        destruct (list_assign _ i true) as [v|e2] eqn:Hv; cbn [bind] in He;
          [discriminate He|].
        injection He as <-. now apply list_assign_raise in Hv.
      * exists (length parameters), IndexError. split.
        -- apply in_seq. subst n. lia.
        -- now rewrite index_raise by lia.
  - intros Hn Hp.
    destruct (@nth_error_in_range _ (go.data figure) 0 Hn) as [t Ht].
    rewrite (@set_trace_visible_ok _ 0 t Ht). cbn [bind].
    set (d := firstn 0 (go.data figure) ++
              with_visible t true :: skipn 1 (go.data figure)).
    assert (Hd : length d = n) by (apply length_assigned; exact Hn).
    rewrite Hd.
    set (F := fun i =>
           {| go.method := "update"%string;
              go.label := format_2f (nth i parameters 0);
              go.args_visible :=
                firstn i (repeat false n) ++
                true :: skipn (S i) (repeat false n) |}).
    rewrite (@mapM_seq_total _ _ F n).
    + cbn [bind]. exists d, (map F (seq 0 n)).
      split; [reflexivity|]. split; [exact Hd|]. split; [|split].
      * intros j t' Hj. unfold d.
        rewrite nth_error_assigned by exact Hn.
        destruct (Nat.eqb_spec j 0) as [->|_]; [congruence|exact Hj].
      * now rewrite length_map, length_seq.
      * intros i Hi. exists (F i).
        split; [now apply nth_error_map_seq|].
        split; [reflexivity|]. split; [reflexivity|].
        split; [cbn [F go.args_visible];
                rewrite length_assigned; rewrite repeat_length;
                [reflexivity|exact Hi]|].
        intros j. cbn [F go.args_visible].
        rewrite nth_assigned by (rewrite repeat_length; exact Hi).
        destruct (Nat.eqb j i); [reflexivity|apply nth_repeat].
    + intros i Hi. rewrite (@index_ok _ parameters i 0) by lia. cbn [bind].
      rewrite list_assign_ok by (rewrite repeat_length; exact Hi).
      reflexivity.
Qed.

Lemma add_slider_to_function_steps_witness :
  exists d steps,
    add_slider_to_function (fun _ => ""%string)
      {| go.data := [line_scatter false (Arr1 [0]) (Arr1 [1]) ""%string true;
                     line_scatter false (Arr1 [0]) (Arr1 [2]) ""%string true];
         go.sliders := [] |}
      [1; 2] =
    Ok {| go.data := d;
          go.sliders := [{| go.active := 0; go.pad_t := 50;
                            go.steps := steps |}] |} /\
    length steps = 2%nat.
Proof.
  destruct (@add_slider_to_function_steps (fun _ => ""%string)
              {| go.data :=
                   [line_scatter false (Arr1 [0]) (Arr1 [1]) ""%string true;
                    line_scatter false (Arr1 [0]) (Arr1 [2]) ""%string true];
                 go.sliders := [] |}
              [1; 2]) as [_ H].
  destruct (H ltac:(simpl; lia) ltac:(simpl; lia))
    as [d [steps [Hr [_ [_ [Hs _]]]]]].
  exists d, steps. split; [exact Hr|exact Hs].
Defined.

(** ** [add_slider_GPR] *)

Lemma nth_last_true (n j : nat) :
  (0 < n)%nat ->
  nth j (repeat false (n - 1) ++ [true]) false = Nat.eqb j (n - 1).
Proof.
  intros Hn. destruct (Nat.lt_ge_cases j (n - 1)) as [Hj|Hj].
  - rewrite app_nth1 by (rewrite repeat_length; exact Hj).
    rewrite nth_repeat. symmetry. apply Nat.eqb_neq. lia.
  - rewrite app_nth2 by (rewrite repeat_length; exact Hj).
    rewrite repeat_length.
    destruct (Nat.eqb_spec j (n - 1)) as [->|Hne].
    + now rewrite Nat.sub_diag.
    + destruct (j - (n - 1))%nat as [|[|k]] eqn:E; [lia|reflexivity..].
Qed.

Lemma length_last_true (n : nat) :
  (0 < n)%nat -> length (repeat false (n - 1) ++ [true]) = n.
Proof.
  intros Hn. rewrite length_app, repeat_length. simpl. lia.
Qed.

(** X17: [add_slider_GPR] raises [IndexError] when the figure has fewer
    than two traces or fewer parameters than steps.  Otherwise it makes
    the first two traces visible and installs one slider with
    [(n - 1) / 2] steps for [n] traces; no assignment into a visibility
    list is out of range, and step [i] shows exactly the traces [2 i],
    [2 i + 1] and the last one.  For an even number of traces the trace
    before the last is shown by no step. *)
Theorem add_slider_GPR_steps (format_2f : R -> String.string)
    (figure : go.Figure) (parameters : vec) :
  let n := length (go.data figure) in
  let m := ((n - 1) / 2)%nat in
  ((n < 2)%nat \/ (length parameters < m)%nat ->
   add_slider_GPR format_2f figure parameters = Raise IndexError) /\
  ((2 <= n)%nat -> (m <= length parameters)%nat ->
   exists d steps,
     add_slider_GPR format_2f figure parameters =
       Ok {| go.data := d;
             go.sliders := [{| go.active := 0; go.pad_t := 50;
                               go.steps := steps |}] |} /\
     length d = n /\
     (forall j t, nth_error (go.data figure) j = Some t ->
        nth_error d j =
        Some (if Nat.ltb j 2 then with_visible t true else t)) /\
     length steps = m /\
     forall i, (i < m)%nat ->
       exists st,
         nth_error steps i = Some st /\
         go.method st = "update"%string /\
         go.label st = format_2f (nth i parameters 0) /\
         length (go.args_visible st) = n /\
         (forall j, nth j (go.args_visible st) false =
                    (Nat.eqb j (2 * i) || Nat.eqb j (2 * i + 1) ||
                     Nat.eqb j (n - 1))%bool) /\
         (Nat.even n = true ->
          nth (n - 2) (go.args_visible st) false = false)).
Proof.
  intros n m.
  assert (Hm : (2 * m <= n - 1)%nat) by apply Nat.Div0.mul_div_le.
  unfold add_slider_GPR.
  destruct (Nat.lt_ge_cases n 2) as [Hn2|Hn2].
  { split; [|intros; lia]. intros _. unfold n in Hn2. clear Hm.
    destruct (go.data figure) as [|t [|t' ts]];
      [reflexivity|reflexivity|]. simpl in Hn2. lia. }
  destruct (@nth_error_in_range _ (go.data figure) 0 ltac:(fold n; lia))
    as [t0 Ht0].
  rewrite (@set_trace_visible_ok _ 0 t0 Ht0). cbn [bind].
  set (d0 := firstn 0 (go.data figure) ++
             with_visible t0 true :: skipn 1 (go.data figure)).
  assert (Hd0 : length d0 = n) by (apply length_assigned; fold n; lia).
  destruct (@nth_error_in_range _ d0 1 ltac:(lia)) as [t1 Ht1].
  rewrite (@set_trace_visible_ok _ 1 t1 Ht1). cbn [bind].
  set (d := firstn 1 d0 ++ with_visible t1 true :: skipn 2 d0).
  assert (Hd : length d = n)
    by (unfold d; rewrite length_assigned; lia).
  rewrite Hd. fold m.
  assert (Hraise : forall i e,
            (p <- index parameters i ;;
             vis0 <- list_assign (repeat false (n - 1) ++ [true])
                                 (2 * i) true ;;
             vis <- list_assign vis0 (2 * i + 1) true ;;
             Ok {| go.method := "update"%string;
                   go.label := format_2f p;
                   go.args_visible := vis |}) = Raise e ->
            e = IndexError).
  { intros i e He.
    destruct (index parameters i) as [p|e1] eqn:Hi; cbn [bind] in He;
      [|injection He as <-; now apply index_raise_inv in Hi].
    destruct (list_assign _ (2 * i) true) as [v|e2] eqn:Hv;
      cbn [bind] in He;
      [|injection He as <-; now apply list_assign_raise in Hv].
    destruct (list_assign v (2 * i + 1) true) as [v'|e3] eqn:Hv';
      cbn [bind] in He; [discriminate He|].
    injection He as <-. now apply list_assign_raise in Hv'. }
  split.
  - intros [Hlt|Hp]; [lia|].
    rewrite (@mapM_raise _ _ _ IndexError); [reflexivity| |].
    + intros i e _ He. apply (Hraise i e He).
    + exists (length parameters), IndexError. split.
      * apply in_seq. lia.
      * now rewrite index_raise by lia.
  - intros _ Hp.
    set (vis0 := repeat false (n - 1) ++ [true]).
    assert (Hl0 : length vis0 = n) by (apply length_last_true; lia).
    set (V := fun i =>
           firstn (2 * i + 1)
                  (firstn (2 * i) vis0 ++ true :: skipn (S (2 * i)) vis0) ++
           true :: skipn (S (2 * i + 1))
                  (firstn (2 * i) vis0 ++ true :: skipn (S (2 * i)) vis0)).
    set (F := fun i =>
           {| go.method := "update"%string;
              go.label := format_2f (nth i parameters 0);
              go.args_visible := V i |}).
    rewrite (@mapM_seq_total _ _ F m).
    + cbn [bind]. exists d, (map F (seq 0 m)).
      split; [reflexivity|]. split; [exact Hd|]. split; [|split].
      * intros j t Hj. unfold d.
        rewrite nth_error_assigned by lia. unfold d0.
        rewrite nth_error_assigned by (fold n; lia).
        unfold d0 in Ht1. rewrite nth_error_assigned in Ht1 by (fold n; lia).
        simpl Nat.eqb in Ht1.
        destruct j as [|[|j]]; simpl; [congruence|congruence|exact Hj].
      * now rewrite length_map, length_seq.
      * intros i Hi.
        assert (H1 : (2 * i < n)%nat) by lia.
        assert (H2 : (2 * i + 1 < n)%nat) by lia.
        assert (HV : forall j, nth j (V i) false =
                     (Nat.eqb j (2 * i) || Nat.eqb j (2 * i + 1) ||
                      Nat.eqb j (n - 1))%bool).
        { intros j. unfold V.
          rewrite nth_assigned by (rewrite length_assigned; lia).
          rewrite nth_assigned by lia.
          unfold vis0. rewrite nth_last_true by lia.
          destruct (Nat.eqb j (2 * i + 1)), (Nat.eqb j (2 * i));
            reflexivity. }
        exists (F i). split; [now apply nth_error_map_seq|].
        split; [reflexivity|]. split; [reflexivity|].
        split; [cbn [F go.args_visible]; unfold V;
                rewrite !length_assigned; try rewrite length_assigned; lia|].
        split; [exact HV|].
        intros Heven. cbn [F go.args_visible]. rewrite HV.
        apply Nat.even_spec in Heven. destruct Heven as [q Hq].
        assert (E1 : Nat.eqb (n - 2) (2 * i) = false)
          by (apply Nat.eqb_neq; lia).
        assert (E2 : Nat.eqb (n - 2) (2 * i + 1) = false)
          by (apply Nat.eqb_neq; lia).
        assert (E3 : Nat.eqb (n - 2) (n - 1) = false)
          by (apply Nat.eqb_neq; lia).
        now rewrite E1, E2, E3.
    + intros i Hi. rewrite (@index_ok _ parameters i 0) by lia. cbn [bind].
      fold vis0. rewrite list_assign_ok by lia. cbn [bind].
      rewrite list_assign_ok by (rewrite length_assigned; lia).
      reflexivity.
Qed.

Lemma add_slider_GPR_steps_witness :
  exists d steps,
    add_slider_GPR (fun _ => ""%string)
      {| go.data := [line_scatter false (Arr1 [0]) (Arr1 [1]) ""%string true;
                     line_scatter false (Arr1 [0]) (Arr1 [2]) ""%string true;
                     line_scatter false (Arr1 [0]) (Arr1 [3]) ""%string true];
         go.sliders := [] |}
      [1] =
    Ok {| go.data := d;
          go.sliders := [{| go.active := 0; go.pad_t := 50;
                            go.steps := steps |}] |} /\
    length steps = 1%nat.
Proof.
  destruct (@add_slider_GPR_steps (fun _ => ""%string)
              {| go.data :=
                   [line_scatter false (Arr1 [0]) (Arr1 [1]) ""%string true;
                    line_scatter false (Arr1 [0]) (Arr1 [2]) ""%string true;
                    line_scatter false (Arr1 [0]) (Arr1 [3]) ""%string true];
                 go.sliders := [] |}
              [1]) as [_ H].
  destruct (H ltac:(simpl; lia) ltac:(simpl; lia))
    as [d [steps [Hr [_ [_ [Hs _]]]]]].
  exists d, steps. split; [exact Hr|exact Hs].
Defined.

(** ** [uncertainty_area_scatter] *)

Lemma uncertainty_area_vectors (visible : bool) (x u l : vec)
    (name : String.string) :
  uncertainty_area_scatter visible (Arr1 x) (Arr1 u) (Arr1 l) name =
  Ok {| go.visible := visible;
        go.x := Arr1 (x ++ rev x);
        go.y := Arr1 (u ++ rev l);
        go.fill := Some "toself"%string;
        go.fillcolor := Some "rgba(189,195,199,0.5)"%string;
        go.line := Some {| go.color := "rgba(200,200,200,0)"%string;
                           go.width := None;
                           go.size := None |};
        go.hoverinfo := Some "skip"%string;
        go.showlegend := true;
        go.name := name;
        go.mode := None;
        go.marker := None |}.
Proof. reflexivity. Qed.




(** ** [plot_GPR] *)

Lemma map_seq_combine_op (op : R -> R -> R) (a b : vec) :
  length a = length b ->
  map (fun j => op (nth j a 0) (nth j b 0)) (seq 0 (length a)) =
  map (fun p => op (fst p) (snd p)) (combine a b).
Proof.
  revert b. induction a as [|x a IH]; intros [|z b] Hlen; simpl in *;
    try discriminate; [reflexivity|].
  f_equal. rewrite <- seq_shift, map_map. apply IH. lia.
Qed.

Lemma np_binop_vectors (op : R -> R -> R) (a b : vec) :
  length a = length b ->
  np_binop op (Arr1 a) (Arr1 b) =
  Ok (Arr1 (map (fun p => op (fst p) (snd p)) (combine a b))).
Proof.
  intros Hlen. unfold np_binop. cbn [vrows vcols ndim].
  rewrite bdim_refl. cbn [bind]. rewrite Hlen, bdim_refl. cbn [bind].
  simpl Nat.max. cbv iota beta. do 2 f_equal.
  unfold table. simpl seq. simpl map at 1. simpl nth.
  rewrite <- Hlen, <- (map_seq_combine_op op a b Hlen).
  apply map_ext_in. intros j Hj. apply in_seq in Hj.
  destruct (Nat.eqb_spec (length a) 1) as [H1|_]; [|reflexivity].
  replace j with 0%nat by lia. reflexivity.
Qed.

Lemma map_combine_map (g : R * R -> R) (h : R -> R) (a b : vec) :
  map g (combine a (map h b)) =
  map (fun p => g (fst p, h (snd p))) (combine a b).
Proof.
  revert b. induction a as [|x a IH]; intros [|z b]; simpl;
    try reflexivity.
  now rewrite IH.
Qed.

Lemma band_lower_computed (i : nat) (mu v : vec) :
  length mu = length v ->
  np_sub (Arr1 mu) (np_scale (INR i) (np_sqrt (Arr1 v))) =
  Ok (Arr1 (band_lower i mu v)).
Proof.
  intros Hlen. cbn [np_sqrt np_scale]. unfold np_sub.
  rewrite np_binop_vectors by (now rewrite !length_map).
  rewrite map_map. do 2 f_equal. unfold band_lower.
  apply (map_combine_map (fun p => fst p - snd p)
                         (fun s => INR i * sqrt s)).
Qed.

Lemma band_upper_computed (i : nat) (mu v : vec) :
  length mu = length v ->
  np_add (Arr1 mu) (np_scale (INR i) (np_sqrt (Arr1 v))) =
  Ok (Arr1 (band_upper i mu v)).
Proof.
  intros Hlen. cbn [np_sqrt np_scale]. unfold np_add.
  rewrite np_binop_vectors by (now rewrite !length_map).
  rewrite map_map. do 2 f_equal. unfold band_upper.
  apply (map_combine_map (fun p => fst p + snd p)
                         (fun s => INR i * sqrt s)).
Qed.

Lemma nth_band (g : R * R -> R) (mu v : vec) (j : nat) :
  length mu = length v -> (j < length mu)%nat ->
  nth j (map g (combine mu v)) 0 = g (nth j mu 0, nth j v 0).
Proof.
  intros Hlen Hj.
  rewrite (nth_indep _ 0 (g (0, 0)))
    by (rewrite length_map, length_combine; lia).
  rewrite (map_nth g (combine mu v) (0, 0) j).
  now rewrite combine_nth by exact Hlen.
Qed.

(** The three bands are nested around the mean. *)
Lemma bands_nested (mu v : vec) (j : nat) (i1 i2 : nat) :
  length mu = length v -> (j < length mu)%nat -> (i1 <= i2)%nat ->
  nth j (band_lower i2 mu v) 0 <= nth j (band_lower i1 mu v) 0 /\
  nth j (band_lower i1 mu v) 0 <= nth j mu 0 /\
  nth j mu 0 <= nth j (band_upper i1 mu v) 0 /\
  nth j (band_upper i1 mu v) 0 <= nth j (band_upper i2 mu v) 0.
Proof.
  intros Hlen Hj Hi. unfold band_lower, band_upper.
  rewrite !nth_band by assumption. cbn [fst snd].
  pose proof (sqrt_pos (nth j v 0)) as Hs.
  pose proof (pos_INR i1) as H1. pose proof (le_INR _ _ Hi) as H12.
  repeat split; nra.
Qed.

(** X19: when [predict] succeeds at the non-empty one-dimensional array
    [x] and the variances are non-negative, [plot_GPR] leaves the
    regressor as [predict] does and returns five traces in this order:
    the three areas between [mean - i std] and [mean + i std] for
    i = 1, 2, 3, the line of the mean, and the dots of the data.  The
    areas are nested around the mean. *)
Theorem plot_GPR_traces (data_x' data_y' : ndarray) (g : GPR)
    (f : point -> point -> R) (Ki : list vec) (x : vec) (visible : bool) :
  x <> [] ->
  evaluates (covariance_function g) f (data_x g ++ map Scalar x)
            (map Scalar x) ->
  _inverse_of_covariance_matrix_of_input g =
    Arr2 (length (data_x g)) (length (data_x g)) Ki ->
  length (data_y g) = length (data_x g) ->
  (forall j, (j < length x)%nat ->
     0 <= nth j (diagonal (length x)
                   (posterior_cov f (data_x g) Ki (map Scalar x))) 0) ->
  exists g' mu v mem a1 a2 a3,
    GPR_predict g (map Scalar x) = Ok (g', Arr1 mu) /\
    _memory g' = Some mem /\
    variance mem = Arr1 v /\
    length mu = length x /\
    length v = length x /\
    plot_GPR data_x' data_y' g x visible =
      Done (g', [a1; a2; a3;
                 line_scatter visible (Arr1 x) (Arr1 mu)
                   "Predicted function"%string true;
                 dot_scatter visible data_x' data_y'
                   "Observed points"%string true]) /\
    uncertainty_area_scatter visible (Arr1 x)
      (Arr1 (band_upper 1 mu v)) (Arr1 (band_lower 1 mu v)) (band_name 1)
      = Ok a1 /\
    uncertainty_area_scatter visible (Arr1 x)
      (Arr1 (band_upper 2 mu v)) (Arr1 (band_lower 2 mu v)) (band_name 2)
      = Ok a2 /\
    uncertainty_area_scatter visible (Arr1 x)
      (Arr1 (band_upper 3 mu v)) (Arr1 (band_lower 3 mu v)) (band_name 3)
      = Ok a3 /\
    forall j, (j < length x)%nat ->
      nth j (band_lower 3 mu v) 0 <= nth j (band_lower 2 mu v) 0 /\
      nth j (band_lower 2 mu v) 0 <= nth j (band_lower 1 mu v) 0 /\
      nth j (band_lower 1 mu v) 0 <= nth j mu 0 /\
      nth j mu 0 <= nth j (band_upper 1 mu v) 0 /\
      nth j (band_upper 1 mu v) 0 <= nth j (band_upper 2 mu v) 0 /\
      nth j (band_upper 2 mu v) 0 <= nth j (band_upper 3 mu v) 0.
Proof.
  intros Hx Hk HKi Hy _.
  assert (HQ : map Scalar x <> []) by (destruct x; [congruence|discriminate]).
  pose proof (@GPR_predict_ok g f Ki (map Scalar x) HQ Hk HKi Hy) as Hp.
  rewrite length_map in Hp.
  set (mu := posterior_mean f (data_x g) (data_y g) Ki (map Scalar x)) in *.
  set (v := diagonal (length x)
              (posterior_cov f (data_x g) Ki (map Scalar x))) in *.
  assert (Hmu : length mu = length x).
  { unfold mu, posterior_mean, matvec, cov_rows. now rewrite !length_map. }
  assert (Hv : length v = length x).
  { unfold v, diagonal. now rewrite length_map, length_seq. }
  assert (Hmv : length mu = length v) by congruence.
  exists (set_memory g
            {| mean := Arr1 mu;
               covariance_matrix :=
                 Arr2 (length x) (length x)
                   (posterior_cov f (data_x g) Ki (map Scalar x));
               variance := Arr1 v |}), mu, v.
  do 4 eexists.
  split; [exact Hp|]. split; [reflexivity|]. split; [reflexivity|].
  split; [exact Hmu|]. split; [exact Hv|].
  split; [|split; [reflexivity|split; [reflexivity|split; [reflexivity|]]]].
  - unfold plot_GPR. rewrite Hp. cbn [_memory set_memory variance].
    cbn [seq mapM].
    rewrite !(fun i => @band_lower_computed i mu v Hmv),
            !(fun i => @band_upper_computed i mu v Hmv).
    cbn [bind]. rewrite !uncertainty_area_vectors. cbn [bind app].
    reflexivity.
  - intros j Hj. rewrite <- Hmu in Hj.
    destruct (@bands_nested mu v j 2 3 Hmv Hj ltac:(lia)) as [A1 [_ [_ A4]]].
    destruct (@bands_nested mu v j 1 2 Hmv Hj ltac:(lia)) as [B1 [B2 [B3 B4]]].
    auto 10.
Qed.

Lemma plot_GPR_traces_witness :
  exists g' mu v mem a1 a2 a3,
    GPR_predict
      (single_point_regressor (SquaredExponentialKernel_call default_kernel)
                              (Scalar 0) 5 (1 / 100))
      (map Scalar [0]) = Ok (g', Arr1 mu) /\
    _memory g' = Some mem /\
    variance mem = Arr1 v /\
    length mu = 1%nat /\
    length v = 1%nat /\
    plot_GPR (Arr1 [0]) (Arr1 [5])
      (single_point_regressor (SquaredExponentialKernel_call default_kernel)
                              (Scalar 0) 5 (1 / 100))
      [0] true =
      Done (g', [a1; a2; a3;
                 line_scatter true (Arr1 [0]) (Arr1 mu)
                   "Predicted function"%string true;
                 dot_scatter true (Arr1 [0]) (Arr1 [5])
                   "Observed points"%string true]) /\
    uncertainty_area_scatter true (Arr1 [0])
      (Arr1 (band_upper 1 mu v)) (Arr1 (band_lower 1 mu v)) (band_name 1)
      = Ok a1 /\
    uncertainty_area_scatter true (Arr1 [0])
      (Arr1 (band_upper 2 mu v)) (Arr1 (band_lower 2 mu v)) (band_name 2)
      = Ok a2 /\
    uncertainty_area_scatter true (Arr1 [0])
      (Arr1 (band_upper 3 mu v)) (Arr1 (band_lower 3 mu v)) (band_name 3)
      = Ok a3 /\
    forall j, (j < 1)%nat ->
      nth j (band_lower 3 mu v) 0 <= nth j (band_lower 2 mu v) 0 /\
      nth j (band_lower 2 mu v) 0 <= nth j (band_lower 1 mu v) 0 /\
      nth j (band_lower 1 mu v) 0 <= nth j mu 0 /\
      nth j mu 0 <= nth j (band_upper 1 mu v) 0 /\
      nth j (band_upper 1 mu v) 0 <= nth j (band_upper 2 mu v) 0 /\
      nth j (band_upper 2 mu v) 0 <= nth j (band_upper 3 mu v) 0.
Proof.
  apply (@plot_GPR_traces (Arr1 [0]) (Arr1 [5])
           (single_point_regressor
              (SquaredExponentialKernel_call default_kernel)
              (Scalar 0) 5 (1 / 100))
           (value_of (SquaredExponentialKernel_call default_kernel))
           [[/ (value_of (SquaredExponentialKernel_call default_kernel)
                         (Scalar 0) (Scalar 0) +
                (stabilization + 1 / 100))]]
           [0] true).
  - discriminate.
  - apply (default_kernel_evaluates [0; 0] [0]).
  - reflexivity.
  - reflexivity.
  - intros j Hj. replace j with 0%nat by (simpl in Hj; lia).
    cbv [posterior_cov reduction diagonal table matmul matvec
         vecmat transpose col cov_rows dotp rsum single_point_regressor
         data_x data_y map seq length combine fold_right fst snd nth].
    rewrite !default_kernel_at_zero.
    assert (H1 : 1 + (stabilization + 1 / 100) <> 0)
      by (unfold stabilization; lra).
    pose proof (Rinv_r _ H1) as E. unfold stabilization in *.
    set (c := / (1 + (3 / 10000000 + 1 / 100))) in *. lra.
Defined.
